(** * CubeGridWithZoom: the interaction and animation core of the 3x3x3 cube grid

    A shallow embedding of [src/CubeGridWithZoom.tsx]: the closure variables of
    the component's effect become one record [State]; every handler and the
    animation callback [animate] become functions on that record.

    Numbers.  A JavaScript [number] is an IEEE-754 double.  The embedding reads
    every number as a real number and every arithmetic operation as the exact
    one ([Math.PI] is [PI], [Math.hypot] is the Euclidean norm); rounding is
    outside the model.

    three.js.  The program drives the scene through three.js objects.  Only
    their numeric content is kept: a [Vector3], an [Euler] triple (always in
    the default order XYZ), a [Quaternion], and the pairing of [rotation] and
    [quaternion] that an [Object3D] keeps in step. *)

From Stdlib Require Import Reals Lra List Bool Arith Lia.
Import ListNotations.

Open Scope R_scope.

(** ** JavaScript numbers *)

Module Num.

(** [a < b] as the boolean a JavaScript condition tests. *)
Definition ltb (a b : R) : bool := if Rlt_dec a b then true else false.

(** [a > b]. *)
Definition gtb (a b : R) : bool := ltb b a.

(** [Math.hypot(a, b)]. *)
Definition hypot (a b : R) : R := sqrt (a * a + b * b).

End Num.

Notation "a <? b" := (Num.ltb a b) (at level 70, no associativity) : R_scope.
Notation "a >? b" := (Num.gtb a b) (at level 70, no associativity) : R_scope.

(** ** The part of three.js the program touches *)

Module THREE.

Record Vector3 : Type := mkVector3 { v_x : R; v_y : R; v_z : R }.

(** [new THREE.Euler(x, y, z, 'XYZ')]: the order is XYZ throughout. *)
Record Euler : Type := mkEuler { e_x : R; e_y : R; e_z : R }.

Record Quaternion : Type := mkQuaternion { q_x : R; q_y : R; q_z : R; q_w : R }.

(** [new THREE.Quaternion()], the identity rotation. *)
Definition identity : Quaternion := mkQuaternion 0 0 0 1.

(** Modelled from the spec: [Quaternion.setFromEuler] of three.js, which is
    not under src/.  The spec has the drag "build an incremental rotation
    from Euler angles"; this is the quaternion of the rotation about X by
    [e_x], then Y by [e_y], then Z by [e_z] (order XYZ). *)
Definition setFromEuler (e : Euler) : Quaternion :=
  let c1 := cos (e_x e / 2) in
  let c2 := cos (e_y e / 2) in
  let c3 := cos (e_z e / 2) in
  let s1 := sin (e_x e / 2) in
  let s2 := sin (e_y e / 2) in
  let s3 := sin (e_z e / 2) in
  mkQuaternion
    (s1 * c2 * c3 + c1 * s2 * s3)
    (c1 * s2 * c3 - s1 * c2 * s3)
    (c1 * c2 * s3 + s1 * s2 * c3)
    (c1 * c2 * c3 - s1 * s2 * s3).

(** Modelled from the spec: [Quaternion.multiplyQuaternions(a, b)] of
    three.js, which is not under src/.  The spec has the drag "left-multiply"
    the increment onto the orientation; this is the Hamilton product
    [a * b]. *)
Definition multiplyQuaternions (a b : Quaternion) : Quaternion :=
  mkQuaternion
    (q_x a * q_w b + q_w a * q_x b + q_y a * q_z b - q_z a * q_y b)
    (q_y a * q_w b + q_w a * q_y b + q_z a * q_x b - q_x a * q_z b)
    (q_z a * q_w b + q_w a * q_z b + q_x a * q_y b - q_y a * q_x b)
    (q_w a * q_w b - q_x a * q_x b - q_y a * q_y b - q_z a * q_z b).

(** [Quaternion.lengthSq()] and [Quaternion.length()]. *)
Definition lengthSq (q : Quaternion) : R :=
  q_x q * q_x q + q_y q * q_y q + q_z q * q_z q + q_w q * q_w q.

Definition length (q : Quaternion) : R := sqrt (lengthSq q).

(** [Vector3]: [subVectors], [length], [multiplyScalar], [normalize]
    (which divides by [length() || 1]). *)
Definition subVectors (a b : Vector3) : Vector3 :=
  mkVector3 (v_x a - v_x b) (v_y a - v_y b) (v_z a - v_z b).

Definition vlength (v : Vector3) : R :=
  sqrt (v_x v * v_x v + v_y v * v_y v + v_z v * v_z v).

Definition multiplyScalar (v : Vector3) (k : R) : Vector3 :=
  mkVector3 (v_x v * k) (v_y v * k) (v_z v * k).

Definition normalize (v : Vector3) : Vector3 :=
  let l := vlength v in
  multiplyScalar v (1 / (if Req_dec_T l 0 then 1 else l)).

(** An [Object3D] keeps its [rotation] and its [quaternion] in step: writing
    one recomputes the other. *)
Record Object3D : Type := mkObject3D { rotation : Euler; quaternion : Quaternion }.

(** [o.rotation.x = v] and [o.rotation.y = v]. *)
Definition setRotationX (v : R) (o : Object3D) : Object3D :=
  let e := mkEuler v (e_y (rotation o)) (e_z (rotation o)) in
  mkObject3D e (setFromEuler e).

Definition setRotationY (v : R) (o : Object3D) : Object3D :=
  let e := mkEuler (e_x (rotation o)) v (e_z (rotation o)) in
  mkObject3D e (setFromEuler e).

End THREE.

Import THREE.

(** ** The state of the component *)

Record Point : Type := mkPoint { p_x : R; p_y : R }.

(** One entry of [event.touches]. *)
Record Touch : Type := mkTouch { clientX : R; clientY : R; pageX : R; pageY : R }.

(** The variables the handlers and [animate] close over.  [rows] holds
    [rowsRef.current[i].rotation.y] for each row, [cameraPosition] is
    [camera.position]; [scene.position] is never moved and stays the origin. *)
Record State : Type := mkState {
  isDragging : bool;
  previousMousePosition : Point;
  isRotating : bool;
  currentRowIndex : nat;
  rotationStartTime : R;
  targetZoom : R;
  currentZoom : R;
  previousTouchDistance : R;
  group : Object3D;
  rows : list R;
  cameraPosition : Vector3
}.

Definition set_isDragging (b : bool) (s : State) : State :=
  mkState b (previousMousePosition s) (isRotating s) (currentRowIndex s)
    (rotationStartTime s) (targetZoom s) (currentZoom s) (previousTouchDistance s)
    (group s) (rows s) (cameraPosition s).

Definition set_previousMousePosition (p : Point) (s : State) : State :=
  mkState (isDragging s) p (isRotating s) (currentRowIndex s)
    (rotationStartTime s) (targetZoom s) (currentZoom s) (previousTouchDistance s)
    (group s) (rows s) (cameraPosition s).

Definition set_isRotating (b : bool) (s : State) : State :=
  mkState (isDragging s) (previousMousePosition s) b (currentRowIndex s)
    (rotationStartTime s) (targetZoom s) (currentZoom s) (previousTouchDistance s)
    (group s) (rows s) (cameraPosition s).

Definition set_currentRowIndex (i : nat) (s : State) : State :=
  mkState (isDragging s) (previousMousePosition s) (isRotating s) i
    (rotationStartTime s) (targetZoom s) (currentZoom s) (previousTouchDistance s)
    (group s) (rows s) (cameraPosition s).

Definition set_rotationStartTime (t : R) (s : State) : State :=
  mkState (isDragging s) (previousMousePosition s) (isRotating s) (currentRowIndex s)
    t (targetZoom s) (currentZoom s) (previousTouchDistance s)
    (group s) (rows s) (cameraPosition s).

Definition set_targetZoom (z : R) (s : State) : State :=
  mkState (isDragging s) (previousMousePosition s) (isRotating s) (currentRowIndex s)
    (rotationStartTime s) z (currentZoom s) (previousTouchDistance s)
    (group s) (rows s) (cameraPosition s).

Definition set_currentZoom (z : R) (s : State) : State :=
  mkState (isDragging s) (previousMousePosition s) (isRotating s) (currentRowIndex s)
    (rotationStartTime s) (targetZoom s) z (previousTouchDistance s)
    (group s) (rows s) (cameraPosition s).

Definition set_previousTouchDistance (d : R) (s : State) : State :=
  mkState (isDragging s) (previousMousePosition s) (isRotating s) (currentRowIndex s)
    (rotationStartTime s) (targetZoom s) (currentZoom s) d
    (group s) (rows s) (cameraPosition s).

Definition set_group (g : Object3D) (s : State) : State :=
  mkState (isDragging s) (previousMousePosition s) (isRotating s) (currentRowIndex s)
    (rotationStartTime s) (targetZoom s) (currentZoom s) (previousTouchDistance s)
    g (rows s) (cameraPosition s).

Definition set_rows (r : list R) (s : State) : State :=
  mkState (isDragging s) (previousMousePosition s) (isRotating s) (currentRowIndex s)
    (rotationStartTime s) (targetZoom s) (currentZoom s) (previousTouchDistance s)
    (group s) r (cameraPosition s).

Definition set_cameraPosition (v : Vector3) (s : State) : State :=
  mkState (isDragging s) (previousMousePosition s) (isRotating s) (currentRowIndex s)
    (rotationStartTime s) (targetZoom s) (currentZoom s) (previousTouchDistance s)
    (group s) (rows s) v.

(** ** Constants of the effect *)

Definition gridSize : nat := 3.
Definition dragRotationSpeed : R := 0.01.
Definition wholeCubeRotationSpeed : R := 0.005.
Definition rotationDuration : R := 1000.
Definition pauseDuration : R := 3000.
Definition zoomSpeed : R := 0.1.
Definition minZoom : R := 3.
Definition maxZoom : R := 20.

(** The state when the effect has run its set-up: three rows at angle 0, the
    group unrotated, the camera at (6, 6, 6), both zoom values at the camera's
    distance from the origin. *)
Definition initialCamera : Vector3 := mkVector3 6 6 6.

Definition initialState : State :=
  mkState false (mkPoint 0 0) false 0%nat 0
    (vlength initialCamera) (vlength initialCamera) 0
    (mkObject3D (mkEuler 0 0 0) identity)
    (repeat 0 gridSize)
    initialCamera.

(** ** Handlers and the animation callback *)

Section CubeGrid.

(** [Euler.setFromQuaternion] of three.js, by which an [Object3D] refreshes
    its [rotation] when its [quaternion] is written.  It is library code and
    nothing below depends on what it computes, so it is a parameter. *)
Variable eulerOfQuaternion : Quaternion -> Euler.

(** [o.quaternion.multiplyQuaternions(a, b)]. *)
Definition assignProduct (a b : Quaternion) (o : Object3D) : Object3D :=
  let q := multiplyQuaternions a b in
  mkObject3D (eulerOfQuaternion q) q.

Definition startDragging (x y : R) (s : State) : State :=
  set_previousMousePosition (mkPoint x y) (set_isDragging true s).

Definition stopDragging (s : State) : State := set_isDragging false s.

(** The Euler angles of one drag step, before they are made a quaternion. *)
Definition dragEuler (deltaMove : Point) : Euler :=
  mkEuler (p_y deltaMove * dragRotationSpeed) (p_x deltaMove * dragRotationSpeed) 0.

Definition drag (x y : R) (s : State) : State :=
  if isDragging s then
    let deltaMove :=
      mkPoint (x - p_x (previousMousePosition s)) (y - p_y (previousMousePosition s)) in
    let deltaRotationQuaternion := setFromEuler (dragEuler deltaMove) in
    let g := assignProduct deltaRotationQuaternion (quaternion (group s)) (group s) in
    set_previousMousePosition (mkPoint x y) (set_group g s)
  else s.

Definition zoom (delta : R) (s : State) : State :=
  let s1 := set_targetZoom (targetZoom s + delta * zoomSpeed) s in
  set_targetZoom (Rmax minZoom (Rmin maxZoom (targetZoom s1))) s1.

(** Mouse handlers.  [onMouseMove] also probes the hover ray, which only
    feeds the cursor style and is left out. *)
Definition onMouseDown (x y : R) (s : State) : State := startDragging x y s.
Definition onMouseMove (x y : R) (s : State) : State := drag x y s.
Definition onMouseUp (s : State) : State := stopDragging s.

(** What a cancelable handler leaves behind: the new state, and whether it
    called [event.preventDefault()]. *)
Record Handled : Type := mkHandled { after : State; defaultPrevented : bool }.

Definition onWheel (deltaY : R) (s : State) : Handled :=
  mkHandled (zoom deltaY s) true.

(** The distance between the first two touch points, in page coordinates. *)
Definition touchSpread (t0 t1 : Touch) : R :=
  Num.hypot (pageX t0 - pageX t1) (pageY t0 - pageY t1).

Definition onTouchStart (touches : list Touch) (s : State) : Handled :=
  match touches with
  | [t0] => mkHandled (startDragging (clientX t0) (clientY t0) s) true
  | [t0; t1] => mkHandled (set_previousTouchDistance (touchSpread t0 t1) s) false
  | _ => mkHandled s false
  end.

Definition onTouchMove (touches : list Touch) (s : State) : Handled :=
  match touches with
  | [t0] => mkHandled (drag (clientX t0) (clientY t0) s) true
  | [t0; t1] =>
      let touchDistance := touchSpread t0 t1 in
      mkHandled
        (set_previousTouchDistance touchDistance
           (zoom (previousTouchDistance s - touchDistance) s))
        false
  | _ => mkHandled s false
  end.

Definition onTouchEnd (s : State) : State := stopDragging s.

(** [rowsRef.current[i].rotation.y = angle].  Reading a row that is not
    there gives [undefined], and writing its [rotation] throws: [None]. *)
Fixpoint writeRow (i : nat) (angle : R) (rs : list R) {struct rs} : option (list R) :=
  match rs, i with
  | [], _ => None
  | _ :: rest, O => Some (angle :: rest)
  | r :: rest, S j =>
      match writeRow j angle rest with
      | Some rest' => Some (r :: rest')
      | None => None
      end
  end.

(** The three blocks of [animate], in the order of the source.  The guard on
    the four refs always passes: the set-up assigns them and nothing clears
    them. *)

(** "Whole cube auto-rotation". *)
Definition wholeCubeAutoRotation (s : State) : State :=
  if negb (isDragging s) then
    let g1 := setRotationX (e_x (rotation (group s)) + wholeCubeRotationSpeed) (group s) in
    let g2 := setRotationY (e_y (rotation g1) + wholeCubeRotationSpeed) g1 in
    set_group g2 s
  else s.

(** "Timed row rotation". *)
Definition timedRowRotation (time : R) (s : State) : option State :=
  let s1 :=
    if negb (isRotating s) && (time - rotationStartTime s >? pauseDuration)
    then set_rotationStartTime time (set_isRotating true s)
    else s in
  if isRotating s1 then
    let progress := (time - rotationStartTime s1) / rotationDuration in
    if progress <? 1 then
      let angle := progress * PI / 2 in
      match writeRow (currentRowIndex s1) angle (rows s1) with
      | Some rs => Some (set_rows rs s1)
      | None => None
      end
    else
      match writeRow (currentRowIndex s1) (PI / 2) (rows s1) with
      | Some rs =>
          Some
            (set_rotationStartTime time
               (set_currentRowIndex ((currentRowIndex s1 + 1) mod List.length rs)
                  (set_isRotating false (set_rows rs s1))))
      | None => None
      end
  else Some s1.

(** "Smooth zoom". *)
Definition smoothZoom (s : State) : State :=
  let s1 := set_currentZoom (currentZoom s + (targetZoom s - currentZoom s) * 0.1) s in
  let direction := normalize (subVectors (cameraPosition s1) (mkVector3 0 0 0)) in
  set_cameraPosition (multiplyScalar direction (currentZoom s1)) s1.

Definition animate (time : R) (s : State) : option State :=
  match timedRowRotation time (wholeCubeAutoRotation s) with
  | Some s' => Some (smoothZoom s')
  | None => None
  end.

(** ** Runs *)

(** What the host delivers: animation frames with their timestamp, and the
    input events the effect subscribed to. *)
Inductive Event : Type :=
| AnimationFrame (time : R)
| MouseDown (x y : R)
| MouseMove (x y : R)
| MouseUp
| Wheel (deltaY : R)
| TouchStart (touches : list Touch)
| TouchMove (touches : list Touch)
| TouchEnd.

Definition dispatch (e : Event) (s : State) : option State :=
  match e with
  | AnimationFrame time => animate time s
  | MouseDown x y => Some (onMouseDown x y s)
  | MouseMove x y => Some (onMouseMove x y s)
  | MouseUp => Some (onMouseUp s)
  | Wheel deltaY => Some (after (onWheel deltaY s))
  | TouchStart touches => Some (after (onTouchStart touches s))
  | TouchMove touches => Some (after (onTouchMove touches s))
  | TouchEnd => Some (onTouchEnd s)
  end.

Fixpoint exec (es : list Event) (s : State) : option State :=
  match es with
  | [] => Some s
  | e :: rest =>
      match dispatch e s with
      | Some s' => exec rest s'
      | None => None
      end
  end.

(** The timestamps of the animation frames of a run, in order. *)
Fixpoint frameTimes (es : list Event) : list R :=
  match es with
  | [] => []
  | AnimationFrame time :: rest => time :: frameTimes rest
  | _ :: rest => frameTimes rest
  end.

(** A monotonic clock: each timestamp is at least [from] and at least the
    one before it. *)
Fixpoint monotonicFrom (from : R) (ts : list R) : Prop :=
  match ts with
  | [] => True
  | t :: rest => from <= t /\ monotonicFrom t rest
  end.

(** A completed row rotation as an observer of two successive states sees
    it: which row, at which frame, and what the frame left behind. *)
Record Completion : Type := mkCompletion {
  layer : nat;
  atTime : R;
  angleAfter : option R;
  indexAfter : nat;
  timerAfter : R
}.

Definition observe (time : R) (s s' : State) : list Completion :=
  if isRotating s && negb (isRotating s')
  then [mkCompletion (currentRowIndex s) time
          (nth_error (rows s') (currentRowIndex s))
          (currentRowIndex s') (rotationStartTime s')]
  else [].

(** The completions seen along a run of frames, oldest first, with the
    final state. *)
Fixpoint framesLog (ts : list R) (s : State) : option (State * list Completion) :=
  match ts with
  | [] => Some (s, [])
  | t :: rest =>
      match animate t s with
      | Some s' =>
          match framesLog rest s' with
          | Some (sf, log) => Some (sf, observe t s s' ++ log)
          | None => None
          end
      | None => None
      end
  end.

End CubeGrid.

(** A run of animation frames only, with no input in between. *)
Fixpoint frames (ts : list R) (s : State) : option State :=
  match ts with
  | [] => Some s
  | t :: rest =>
      match animate t s with
      | Some s' => frames rest s'
      | None => None
      end
  end.

(** A run of drag moves: the pointer visits the given positions in turn. *)
Definition dragMoves (eulerOfQuaternion : Quaternion -> Euler)
    (ps : list Point) (s : State) : State :=
  fold_left (fun acc p => onMouseMove eulerOfQuaternion (p_x p) (p_y p) acc) ps s.

(** What one frame does to the row scheduler, case by case.  [Phase time s s']
    relates the scheduler variables before and after the frame at [time]. *)
Inductive Phase (time : R) (s s' : State) : Prop :=
| PhaseIdle :
    isRotating s = false ->
    time - rotationStartTime s <= pauseDuration ->
    isRotating s' = false ->
    currentRowIndex s' = currentRowIndex s ->
    rotationStartTime s' = rotationStartTime s ->
    rows s' = rows s ->
    Phase time s s'
| PhaseBegin :
    isRotating s = false ->
    pauseDuration < time - rotationStartTime s ->
    isRotating s' = true ->
    currentRowIndex s' = currentRowIndex s ->
    rotationStartTime s' = time ->
    writeRow (currentRowIndex s) 0 (rows s) = Some (rows s') ->
    Phase time s s'
| PhaseTurn :
    isRotating s = true ->
    (time - rotationStartTime s) / rotationDuration < 1 ->
    isRotating s' = true ->
    currentRowIndex s' = currentRowIndex s ->
    rotationStartTime s' = rotationStartTime s ->
    writeRow (currentRowIndex s)
      ((time - rotationStartTime s) / rotationDuration * PI / 2) (rows s) = Some (rows s') ->
    Phase time s s'
| PhaseSettle :
    isRotating s = true ->
    1 <= (time - rotationStartTime s) / rotationDuration ->
    isRotating s' = false ->
    currentRowIndex s' = ((currentRowIndex s + 1) mod List.length (rows s'))%nat ->
    rotationStartTime s' = time ->
    writeRow (currentRowIndex s) (PI / 2) (rows s) = Some (rows s') ->
    Phase time s s'.

(** The variables a frame never writes. *)
Definition sameInput (s s' : State) : Prop :=
  isDragging s' = isDragging s /\
  previousMousePosition s' = previousMousePosition s /\
  previousTouchDistance s' = previousTouchDistance s /\
  targetZoom s' = targetZoom s.

(** The scheduler variables, which no input handler writes. *)
Definition sameScheduler (s s' : State) : Prop :=
  isRotating s' = isRotating s /\
  currentRowIndex s' = currentRowIndex s /\
  rotationStartTime s' = rotationStartTime s /\
  rows s' = rows s.

(** A row angle between 0 and a quarter turn. *)
Definition quarterTurn (a : R) : Prop := 0 <= a <= PI / 2.

(** The active row exists. *)
Definition rowInRange (s : State) : Prop :=
  (currentRowIndex s < List.length (rows s))%nat.

(** The scheduler variables of a state, side by side. *)
Definition scheduler (s : State) : bool * nat * R * list R :=
  (isRotating s, currentRowIndex s, rotationStartTime s, rows s).

(** One full cycle of the scheduler: a pause and a rotation, 4000 ms. *)
Definition cycle : R := pauseDuration + rotationDuration.



(** What the frames of a session keep true when the clock is monotonic and
    stands at [now]: the active row exists, every row angle is within a
    quarter turn, and a rotation in progress did not start in the future. *)
Definition anglesBounded (now : R) (s : State) : Prop :=
  rowInRange s /\
  Forall quarterTurn (rows s) /\
  (isRotating s = true -> rotationStartTime s <= now).

(** A stand-in for the three.js conversion where a concrete run needs one;
    no statement below depends on the choice. *)
Definition eulerUnread (q : Quaternion) : Euler := mkEuler 0 0 0.

(** ** The scene the set-up builds *)

Definition cubeSize : R := 0.8.
Definition gap : R := 0.1.
Definition offset : R := (cubeSize + gap) * (INR gridSize - 1) / 2.

(** The two visuals of a cube: its faces and its outline. *)
Inductive Visual : Type := Mesh | LineSegments.

(** A child of a row with the position the set-up gives it. *)
Record Child : Type := mkChild { visual : Visual; position : Vector3 }.

(** [cube.position.set(x * (cubeSize + gap) - offset, 0, z * (cubeSize + gap) - offset)]. *)
Definition cubePosition (x z : nat) : Vector3 :=
  mkVector3 (INR x * (cubeSize + gap) - offset) 0 (INR z * (cubeSize + gap) - offset).

(** The children the loops over [x] and [z] add to one row: each cube, then
    its outline at the same position. *)
Definition buildRow : list Child :=
  flat_map
    (fun x =>
       flat_map
         (fun z => [mkChild Mesh (cubePosition x z);
                    mkChild LineSegments (cubePosition x z)])
         (seq 0 gridSize))
    (seq 0 gridSize).

(** A row with [row.position.y]. *)
Record Row : Type := mkRow { rowY : R; children : list Child }.

(** The rows the loop over [y] pushes to [rowsRef.current], in order. *)
Definition buildRows : list Row :=
  map (fun y => mkRow (INR y * (cubeSize + gap) - offset) buildRow) (seq 0 gridSize).

Definition isMesh (c : Child) : bool :=
  match visual c with Mesh => true | LineSegments => false end.

(** Where a child of a row sits in the group while the row is not turned. *)
Definition inGroup (r : Row) (c : Child) : Vector3 :=
  mkVector3 (v_x (position c)) (rowY r + v_y (position c)) (v_z (position c)).

(** The centres of all cubes of the grid. *)
Definition cubeCentres : list Vector3 :=
  flat_map (fun r => map (inGroup r) (filter isMesh (children r))) buildRows.

(** ** The pointer in normalized device coordinates *)

(** The two assignments that open [checkHover]; the ray cast that follows
    belongs to three.js. *)
Definition pointerToDevice (innerWidth innerHeight x y : R) : Point :=
  mkPoint (x / innerWidth * 2 - 1) (- (y / innerHeight) * 2 + 1).

(** ** The listeners on [window] *)

Inductive EventName : Type :=
| mousedown | mousemove | mouseup | wheel | touchstart | touchmove | touchend | resize.

(** The functions the effect registers.  [onMouseUp] and [onTouchEnd] are both
    [stopDragging] itself; [foreign] stands for the listeners of other code. *)
Inductive Callback : Type :=
| the_onMouseDown | the_onMouseMove | the_stopDragging | the_onWheel
| the_onTouchStart | the_onTouchMove | the_handleResize
| foreign (id : nat).

Definition Listener : Type := (EventName * Callback)%type.

Definition eventName_eqb (a b : EventName) : bool :=
  match a, b with
  | mousedown, mousedown | mousemove, mousemove | mouseup, mouseup | wheel, wheel
  | touchstart, touchstart | touchmove, touchmove | touchend, touchend
  | resize, resize => true
  | _, _ => false
  end.

Definition callback_eqb (a b : Callback) : bool :=
  match a, b with
  | the_onMouseDown, the_onMouseDown | the_onMouseMove, the_onMouseMove
  | the_stopDragging, the_stopDragging | the_onWheel, the_onWheel
  | the_onTouchStart, the_onTouchStart | the_onTouchMove, the_onTouchMove
  | the_handleResize, the_handleResize => true
  | foreign i, foreign j => Nat.eqb i j
  | _, _ => false
  end.

Definition listener_eqb (a b : Listener) : bool :=
  eventName_eqb (fst a) (fst b) && callback_eqb (snd a) (snd b).

(** [window.addEventListener(name, callback)]: a listener already registered
    for the same event is not registered twice. *)
Definition addEventListener (l : Listener) (reg : list Listener) : list Listener :=
  if existsb (listener_eqb l) reg then reg else reg ++ [l].

(** [window.removeEventListener(name, callback)]. *)
Definition removeEventListener (l : Listener) (reg : list Listener) : list Listener :=
  filter (fun l' => negb (listener_eqb l l')) reg.

(** The listeners of the effect, in the order it registers them. *)
Definition ownListeners : list Listener :=
  [(mousedown, the_onMouseDown); (mousemove, the_onMouseMove);
   (mouseup, the_stopDragging); (wheel, the_onWheel);
   (touchstart, the_onTouchStart); (touchmove, the_onTouchMove);
   (touchend, the_stopDragging); (resize, the_handleResize)].

(** The registrations of the set-up, and the removals of the clean-up
    function, which come in the same order. *)
Definition subscribe (reg : list Listener) : list Listener :=
  fold_left (fun acc l => addEventListener l acc) ownListeners reg.

Definition unsubscribe (reg : list Listener) : list Listener :=
  fold_left (fun acc l => removeEventListener l acc) ownListeners reg.

(** ** More runs and what they keep *)

(** A run of two-finger touch moves. *)
Definition pinchMoves (eulerOfQuaternion : Quaternion -> Euler)
    (ms : list (Touch * Touch)) (s : State) : State :=
  fold_left
    (fun acc m => after (onTouchMove eulerOfQuaternion [fst m; snd m] acc)) ms s.

(** A row at rest: unturned, or settled at a quarter turn. *)
Definition atRest (a : R) : Prop := a = 0 \/ a = PI / 2.

(** Every row is at rest, except the active one while it is being turned. *)
Definition rowsAtRest (s : State) : Prop :=
  forall j a, nth_error (rows s) j = Some a ->
    (isRotating s = true /\ j = currentRowIndex s) \/ atRest a.

(** Completions that each come more than one cycle after the one before,
    the first more than one cycle after [prev]. *)
Fixpoint spaced (prev : R) (log : list Completion) : Prop :=
  match log with
  | [] => True
  | c :: rest => prev + cycle < atTime c /\ spaced (atTime c) rest
  end.

(** The scheduler has not moved on before [T]: in a pause the timer is at
    least [T], in a rotation it is more than a pause later. *)
Definition since (T : R) (s : State) : Prop :=
  (isRotating s = false -> T <= rotationStartTime s) /\
  (isRotating s = true -> T + pauseDuration < rotationStartTime s).

(** Both zoom distances within the limits. *)
Definition zoomInBounds (s : State) : Prop :=
  minZoom <= targetZoom s <= maxZoom /\ minZoom <= currentZoom s <= maxZoom.

(** The camera on the ray it started on, [currentZoom] away from the origin. *)
Definition cameraOnRay (s : State) : Prop :=
  cameraPosition s = multiplyScalar (normalize initialCamera) (currentZoom s).

(** Three rows, and an active row among them. *)
Definition threeRows (s : State) : Prop :=
  List.length (rows s) = 3%nat /\ (currentRowIndex s < 3)%nat.

(** * Facts *)

(** ** Numbers *)

Lemma ltb_true (a b : R) : a < b -> Num.ltb a b = true.
Proof. intros H. unfold Num.ltb. destruct (Rlt_dec a b); [reflexivity | contradiction]. Qed.

Lemma ltb_false (a b : R) : b <= a -> Num.ltb a b = false.
Proof. intros H. unfold Num.ltb. destruct (Rlt_dec a b); [lra | reflexivity]. Qed.

Lemma ltb_spec (a b : R) : reflect (a < b) (Num.ltb a b).
Proof. unfold Num.ltb. destruct (Rlt_dec a b); constructor; assumption. Qed.

Lemma hypot_of_square (a b c : R) : 0 <= c -> a * a + b * b = c * c -> Num.hypot a b = c.
Proof. intros Hc H. unfold Num.hypot. rewrite H. apply sqrt_square, Hc. Qed.

(** ** Writing a row *)

Lemma writeRow_in_range (i : nat) (a : R) (rs : list R) :
  (i < List.length rs)%nat -> exists rs', writeRow i a rs = Some rs'.
Proof.
  revert i. induction rs as [|r rest IH]; intros i Hi; simpl in Hi.
  - lia.
  - destruct i as [|j]; simpl.
    + eexists; reflexivity.
    + destruct (IH j) as [rest' Hrest]; [lia|]. rewrite Hrest. eexists; reflexivity.
Qed.

Lemma writeRow_length (i : nat) (a : R) (rs rs' : list R) :
  writeRow i a rs = Some rs' -> List.length rs' = List.length rs.
Proof.
  revert i rs'. induction rs as [|r rest IH]; intros i rs' H; simpl in H.
  - discriminate.
  - destruct i as [|j].
    + injection H as <-. reflexivity.
    + destruct (writeRow j a rest) as [rest'|] eqn:E; [|discriminate].
      injection H as <-. simpl. f_equal. eapply IH, E.
Qed.


Lemma writeRow_same (i : nat) (a : R) (rs rs' : list R) :
  writeRow i a rs = Some rs' -> nth_error rs' i = Some a.
Proof.
  revert i rs'. induction rs as [|r rest IH]; intros i rs' H; simpl in H.
  - discriminate.
  - destruct i as [|j].
    + injection H as <-. reflexivity.
    + destruct (writeRow j a rest) as [rest'|] eqn:E; [|discriminate].
      injection H as <-. simpl. eapply IH, E.
Qed.

Lemma writeRow_other (i j : nat) (a : R) (rs rs' : list R) :
  writeRow i a rs = Some rs' -> j <> i -> nth_error rs' j = nth_error rs j.
Proof.
  revert i j rs'. induction rs as [|r rest IH]; intros i j rs' H Hj; simpl in H.
  - discriminate.
  - destruct i as [|i'].
    + injection H as <-. destruct j; [congruence | reflexivity].
    + destruct (writeRow i' a rest) as [rest'|] eqn:E; [|discriminate].
      injection H as <-. destruct j as [|j']; simpl; [reflexivity|].
      eapply IH; [exact E | congruence].
Qed.

Lemma writeRow_Forall (P : R -> Prop) (i : nat) (a : R) (rs rs' : list R) :
  writeRow i a rs = Some rs' -> P a -> Forall P rs -> Forall P rs'.
Proof.
  revert i rs'. induction rs as [|r rest IH]; intros i rs' H Ha Hall; simpl in H.
  - discriminate.
  - inversion Hall as [|? ? Hr Hrest]; subst. destruct i as [|j].
    + injection H as <-. constructor; assumption.
    + destruct (writeRow j a rest) as [rest'|] eqn:E; [|discriminate].
      injection H as <-. constructor; [assumption|]. eapply IH; eassumption.
Qed.

(** ** One frame *)

Lemma wholeCubeAutoRotation_scheduler (s : State) :
  sameScheduler s (wholeCubeAutoRotation s) /\ sameInput s (wholeCubeAutoRotation s) /\
  currentZoom (wholeCubeAutoRotation s) = currentZoom s.
Proof.
  unfold wholeCubeAutoRotation, sameScheduler, sameInput.
  destruct s as [d p r i t tz cz pt g rs c]; simpl.
  destruct d; simpl; repeat split; reflexivity.
Qed.

Lemma smoothZoom_scheduler (s : State) :
  sameScheduler s (smoothZoom s) /\ sameInput s (smoothZoom s) /\
  group (smoothZoom s) = group s /\
  currentZoom (smoothZoom s) = currentZoom s + (targetZoom s - currentZoom s) * 0.1.
Proof. unfold smoothZoom, sameScheduler, sameInput. simpl. repeat split; reflexivity. Qed.

(** The timed row rotation on a state whose active row exists: it returns,
    the scheduler variables move by one of the four phases, and nothing else
    is written. *)
Lemma timedRowRotation_phase (time : R) (s : State) :
  rowInRange s ->
  exists s', timedRowRotation time s = Some s' /\ Phase time s s' /\
    sameInput s s' /\ group s' = group s /\ currentZoom s' = currentZoom s /\
    cameraPosition s' = cameraPosition s.
Proof.
  intros Hidx. unfold rowInRange in Hidx. unfold timedRowRotation.
  destruct (isRotating s) eqn:Hrot; simpl.
  - rewrite Hrot.
    destruct (ltb_spec ((time - rotationStartTime s) / rotationDuration) 1) as [Hp|Hp].
    + destruct (writeRow_in_range (currentRowIndex s)
                  ((time - rotationStartTime s) / rotationDuration * PI / 2) (rows s) Hidx)
        as [rs Hrs].
      rewrite Hrs. eexists; split; [reflexivity|]. split.
      * apply PhaseTurn; simpl; auto.
      * unfold sameInput; simpl; auto.
    + destruct (writeRow_in_range (currentRowIndex s) (PI / 2) (rows s) Hidx) as [rs Hrs].
      rewrite Hrs. eexists; split; [reflexivity|]. split.
      * apply PhaseSettle; simpl; auto. lra.
      * unfold sameInput; simpl; auto.
  - unfold Num.gtb.
    destruct (ltb_spec pauseDuration (time - rotationStartTime s)) as [Hp|Hp]; simpl.
    + assert (Hz : ((time - time) / rotationDuration <? 1) = true).
      { apply ltb_true. unfold rotationDuration. lra. }
      rewrite Hz.
      assert (Ha : (time - time) / rotationDuration * PI / 2 = 0).
      { unfold rotationDuration. lra. }
      rewrite Ha.
      destruct (writeRow_in_range (currentRowIndex s) 0 (rows s) Hidx) as [rs Hrs].
      rewrite Hrs. eexists; split; [reflexivity|]. split.
      * apply PhaseBegin; simpl; auto.
      * unfold sameInput; simpl; auto.
    + rewrite Hrot. eexists; split; [reflexivity|]. split.
      * apply PhaseIdle; auto. lra.
      * unfold sameInput; auto.
Qed.

Lemma Phase_transport (time : R) (s0 s s' s'' : State) :
  sameScheduler s0 s -> Phase time s s' -> sameScheduler s' s'' -> Phase time s0 s''.
Proof.
  intros (A1 & A2 & A3 & A4) H (B1 & B2 & B3 & B4).
  destruct H as [H1 H2 H3 H4 H5 H6 | H1 H2 H3 H4 H5 H6 | H1 H2 H3 H4 H5 H6 | H1 H2 H3 H4 H5 H6];
    rewrite ?A1, ?A2, ?A3, ?A4 in *;
    [ apply PhaseIdle | apply PhaseBegin | apply PhaseTurn | apply PhaseSettle ];
    rewrite ?B1, ?B2, ?B3, ?B4; assumption.
Qed.

Lemma Phase_length (time : R) (s s' : State) :
  Phase time s s' -> List.length (rows s') = List.length (rows s).
Proof.
  intros [H1 H2 H3 H4 H5 H6 | H1 H2 H3 H4 H5 H6 | H1 H2 H3 H4 H5 H6 | H1 H2 H3 H4 H5 H6].
  - rewrite H6. reflexivity.
  - eapply writeRow_length, H6.
  - eapply writeRow_length, H6.
  - eapply writeRow_length, H6.
Qed.

Lemma Phase_rowInRange (time : R) (s s' : State) :
  rowInRange s -> Phase time s s' -> rowInRange s'.
Proof.
  unfold rowInRange. intros Hidx H. pose proof (Phase_length _ _ _ H) as Hlen.
  destruct H as [H1 H2 H3 H4 H5 H6 | H1 H2 H3 H4 H5 H6 | H1 H2 H3 H4 H5 H6 | H1 H2 H3 H4 H5 H6].
  - rewrite H4, Hlen. exact Hidx.
  - rewrite H4, Hlen. exact Hidx.
  - rewrite H4, Hlen. exact Hidx.
  - rewrite H4. apply Nat.mod_upper_bound. lia.
Qed.

(** One frame on a state whose active row exists: [animate] returns; the
    scheduler moves by one phase; the zoom takes one smoothing step; the input
    variables are not written; and the orientation is written only when no
    drag is active. *)
Lemma animate_frame (time : R) (s : State) :
  rowInRange s ->
  exists s', animate time s = Some s' /\ Phase time s s' /\ sameInput s s' /\
    currentZoom s' = currentZoom s + (targetZoom s - currentZoom s) * 0.1 /\
    (isDragging s = true -> group s' = group s).
Proof.
  intros Hidx.
  destruct (wholeCubeAutoRotation_scheduler s) as (Hs & Hi & Hz).
  assert (Hidx' : rowInRange (wholeCubeAutoRotation s)).
  { unfold rowInRange in *. destruct Hs as (_ & E2 & _ & E4). rewrite E2, E4. exact Hidx. }
  destruct (timedRowRotation_phase time _ Hidx') as (s1 & Ht & Hph & Hi1 & Hg1 & Hz1 & _).
  destruct (smoothZoom_scheduler s1) as (Hs2 & Hi2 & Hg2 & Hz2).
  exists (smoothZoom s1). unfold animate. rewrite Ht. split; [reflexivity|]. split.
  - eapply Phase_transport; [ | exact Hph | exact Hs2 ].
    destruct Hs as (E1 & E2 & E3 & E4). unfold sameScheduler. auto.
  - destruct Hi as (I1 & I2 & I3 & I4), Hi1 as (J1 & J2 & J3 & J4), Hi2 as (K1 & K2 & K3 & K4).
    split.
    + unfold sameInput. rewrite K1, K2, K3, K4, J1, J2, J3, J4, I1, I2, I3, I4. auto.
    + split.
      * rewrite Hz2, J4, I4, Hz1, Hz. reflexivity.
      * intros Hd. rewrite Hg2, Hg1. unfold wholeCubeAutoRotation. rewrite Hd. reflexivity.
Qed.

(** ** One frame, phase by phase, on known scheduler variables *)

Ltac phase_cases H :=
  destruct H as [?P1 ?P2 ?P3 ?P4 ?P5 ?P6 | ?P1 ?P2 ?P3 ?P4 ?P5 ?P6
                | ?P1 ?P2 ?P3 ?P4 ?P5 ?P6 | ?P1 ?P2 ?P3 ?P4 ?P5 ?P6].





(** ** Runs of frames *)

Lemma framesLog_step (t : R) (rest : list R) (s s' sf : State) (log : list Completion) :
  animate t s = Some s' -> framesLog rest s' = Some (sf, log) ->
  framesLog (t :: rest) s = Some (sf, observe t s s' ++ log).
Proof. intros Ha Hr. simpl. rewrite Ha, Hr. reflexivity. Qed.











(** * The layer rotation scheduler *)









(** ** Input handlers and the scheduler *)

Lemma drag_scheduler (f : Quaternion -> Euler) (x y : R) (s : State) :
  sameScheduler s (drag f x y s).
Proof.
  unfold drag, sameScheduler. destruct (isDragging s); simpl; auto.
Qed.

Lemma zoom_scheduler (delta : R) (s : State) : sameScheduler s (zoom delta s).
Proof. unfold zoom, sameScheduler. simpl. auto. Qed.

Lemma input_event_scheduler (f : Quaternion -> Euler) (e : Event) (s : State) :
  (forall t, e <> AnimationFrame t) ->
  exists s', dispatch f e s = Some s' /\ sameScheduler s s'.
Proof.
  intros He. destruct e as [t|x y|x y| |d|ts|ts| ]; simpl.
  - exfalso. apply (He t). reflexivity.
  - eexists; split; [reflexivity|]. unfold sameScheduler; simpl; auto.
  - eexists; split; [reflexivity|]. apply drag_scheduler.
  - eexists; split; [reflexivity|]. unfold sameScheduler; simpl; auto.
  - eexists; split; [reflexivity|]. apply zoom_scheduler.
  - eexists; split; [reflexivity|].
    destruct ts as [|t0 [|t1 [|t2 rest]]]; unfold sameScheduler; simpl; auto.
  - eexists; split; [reflexivity|].
    destruct ts as [|t0 [|t1 [|t2 rest]]]; simpl;
      [ unfold sameScheduler; auto | apply drag_scheduler
      | unfold sameScheduler; simpl; auto | unfold sameScheduler; auto ].
  - eexists; split; [reflexivity|]. unfold sameScheduler; simpl; auto.
Qed.

(** ** Row angles stay within a quarter turn *)

Lemma quarterTurn_zero : quarterTurn 0.
Proof. unfold quarterTurn. pose proof PI_RGT_0. lra. Qed.

Lemma quarterTurn_full : quarterTurn (PI / 2).
Proof. unfold quarterTurn. pose proof PI_RGT_0. lra. Qed.

Lemma quarterTurn_progress (p : R) : 0 <= p -> p < 1 -> quarterTurn (p * PI / 2).
Proof. unfold quarterTurn. intros H0 H1. pose proof PI_RGT_0. nra. Qed.

Lemma anglesBounded_frame (now t : R) (s : State) :
  anglesBounded now s -> now <= t ->
  exists s', animate t s = Some s' /\ anglesBounded t s'.
Proof.
  intros (Hrange & Hall & Hstart) Ht.
  destruct (animate_frame t s Hrange) as (s' & Ha & Hph & _).
  exists s'. split; [exact Ha|].
  pose proof (Phase_rowInRange _ _ _ Hrange Hph) as Hrange'.
  split; [exact Hrange'|].
  phase_cases Hph; unfold pauseDuration, rotationDuration in *.
  - split; [rewrite P6; exact Hall | congruence].
  - split; [|intros _; lra].
    eapply writeRow_Forall; [exact P6 | exact quarterTurn_zero | exact Hall].
  - specialize (Hstart P1). split; [|intros _; lra].
    eapply writeRow_Forall; [exact P6 | | exact Hall].
    apply quarterTurn_progress; [|exact P2].
    apply Rmult_le_pos; lra.
  - split; [|congruence].
    eapply writeRow_Forall; [exact P6 | exact quarterTurn_full | exact Hall].
Qed.

Lemma anglesBounded_run (f : Quaternion -> Euler) (es : list Event) :
  forall (now : R) (s : State),
    anglesBounded now s -> monotonicFrom now (frameTimes es) ->
    exists s', exec f es s = Some s' /\ rowInRange s' /\ Forall quarterTurn (rows s').
Proof.
  induction es as [|e rest IH]; intros now s Hinv Hmono.
  - exists s. destruct Hinv as (Hr & Ha & _). simpl. auto.
  - destruct e as [t|x y|x y| |d|ts|ts| ].
    1: { simpl in Hmono. destruct Hmono as [Ht Hmono].
         destruct (anglesBounded_frame now t s Hinv Ht) as (s' & Ha & Hinv').
         destruct (IH t s' Hinv' Hmono) as (sf & Hf & Hres).
         exists sf. simpl. rewrite Ha. auto. }
    all: match goal with |- context [exec _ (?e :: _) _] =>
           destruct (input_event_scheduler f e s) as (s' & Hd & (E1 & E2 & E3 & E4));
             [intros t; discriminate|];
           destruct (IH now s') as (sf & Hf & Hres);
             [ destruct Hinv as (Hr & Ha & Hs); unfold anglesBounded, rowInRange in *;
               rewrite E1, E2, E3, E4; auto
             | exact Hmono
             | exists sf; cbn [exec]; rewrite Hd; auto ]
         end.
Qed.

(** C10.  In every state a session reaches, by animation frames whose
    timestamps never go back and any input events in between, every row angle
    lies between 0 and [PI / 2]; and every such run returns. *)
Theorem C10_row_angles_within_quarter_turn
    (f : Quaternion -> Euler) (es : list Event) (start : R) :
  monotonicFrom start (frameTimes es) ->
  exists s, exec f es initialState = Some s /\
    forall i a, nth_error (rows s) i = Some a -> 0 <= a <= PI / 2.
Proof.
  intros Hmono.
  destruct (anglesBounded_run f es start initialState) as (s & Hrun & _ & Hall).
  - unfold anglesBounded, rowInRange. simpl. split; [lia|]. split; [|discriminate].
    repeat (apply Forall_cons; [apply quarterTurn_zero|]). apply Forall_nil.
  - exact Hmono.
  - exists s. split; [exact Hrun|].
    intros i a Hi. apply nth_error_In in Hi.
    rewrite Forall_forall in Hall. exact (Hall a Hi).
Qed.

(** C10 on a session with a drag across the start of the first rotation. *)
Lemma C10_row_angles_within_quarter_turn_witness :
  exists s,
    exec eulerUnread
      [AnimationFrame 0; MouseDown 100 100; AnimationFrame 3001;
       MouseMove 110 105; AnimationFrame 3501] initialState = Some s /\
    forall i a, nth_error (rows s) i = Some a -> 0 <= a <= PI / 2.
Proof.
  apply (C10_row_angles_within_quarter_turn eulerUnread
           [AnimationFrame 0; MouseDown 100 100; AnimationFrame 3001;
            MouseMove 110 105; AnimationFrame 3501] 0).
  simpl. lra.
Defined.

(** * The zoom controller *)

Lemma clamp_bounds (x : R) : minZoom <= Rmax minZoom (Rmin maxZoom x) <= maxZoom.
Proof. unfold minZoom, maxZoom, Rmax, Rmin. repeat destruct Rle_dec; lra. Qed.

Lemma zoom_target (delta : R) (s : State) :
  targetZoom (zoom delta s) = Rmax minZoom (Rmin maxZoom (targetZoom s + delta * zoomSpeed)).
Proof. reflexivity. Qed.

(** A positive delta moves the target away, a negative one brings it closer,
    as far as the bounds allow. *)
Lemma zoom_out (delta : R) (s : State) :
  minZoom <= targetZoom s <= maxZoom -> 0 < delta ->
  targetZoom s <= targetZoom (zoom delta s) /\
  (targetZoom s < maxZoom -> targetZoom s < targetZoom (zoom delta s)).
Proof.
  intros Hb Hd. rewrite zoom_target.
  unfold minZoom, maxZoom, zoomSpeed, Rmax, Rmin in *. repeat destruct Rle_dec; lra.
Qed.

Lemma zoom_in (delta : R) (s : State) :
  minZoom <= targetZoom s <= maxZoom -> delta < 0 ->
  targetZoom (zoom delta s) <= targetZoom s /\
  (minZoom < targetZoom s -> targetZoom (zoom delta s) < targetZoom s).
Proof.
  intros Hb Hd. rewrite zoom_target.
  unfold minZoom, maxZoom, zoomSpeed, Rmax, Rmin in *. repeat destruct Rle_dec; lra.
Qed.

(** C5.  A zoom delta sets the target distance to
    [clamp (target + delta * zoomSpeed)], which lies within
    [[minZoom, maxZoom]] whatever the delta and the target before; a wheel
    delta of 100 on a target of 10 gives 20. *)
Theorem C5_zoom_target_is_clamped (delta : R) (s : State) :
  targetZoom (zoom delta s) =
    Rmax minZoom (Rmin maxZoom (targetZoom s + delta * zoomSpeed)) /\
  minZoom <= targetZoom (zoom delta s) <= maxZoom /\
  (targetZoom s = 10 -> targetZoom (after (onWheel 100 s)) = 20) /\
  zoomSpeed = 0.1 /\ maxZoom = 20.
Proof.
  split; [apply zoom_target|]. split; [rewrite zoom_target; apply clamp_bounds|].
  split; [|split; reflexivity].
  intros H10. unfold onWheel. cbn [after]. rewrite zoom_target, H10.
  unfold minZoom, maxZoom, zoomSpeed, Rmax, Rmin. repeat destruct Rle_dec; lra.
Qed.

(** Frames alone: the target stays, the gap to it is multiplied by 0.9 at
    each frame. *)
Lemma frames_zoom (ts : list R) :
  forall s : State,
    rowInRange s ->
    exists s', frames ts s = Some s' /\ targetZoom s' = targetZoom s /\
      targetZoom s' - currentZoom s' =
        0.9 ^ List.length ts * (targetZoom s - currentZoom s).
Proof.
  induction ts as [|t rest IH]; intros s Hrange.
  - exists s. simpl. split; [reflexivity|]. split; [reflexivity | lra].
  - destruct (animate_frame t s Hrange) as (s1 & Ha & Hph & (_ & _ & _ & Ht) & Hz & _).
    destruct (IH s1 (Phase_rowInRange _ _ _ Hrange Hph)) as (s' & Hr & Ht' & Hgap).
    exists s'. simpl. rewrite Ha. split; [exact Hr|]. split; [congruence|].
    rewrite Hgap, Ht, Hz. lra.
Qed.

Lemma geometric_gap (gap eps : R) :
  0 < eps -> exists N : nat, forall n : nat, (N <= n)%nat -> Rabs (0.9 ^ n * gap) < eps.
Proof.
  intros Heps. destruct (Req_dec gap 0) as [-> | Hgap].
  - exists 0%nat. intros n _. rewrite Rmult_0_r, Rabs_R0. exact Heps.
  - pose proof (Rabs_pos_lt gap Hgap) as Hpos.
    destruct (pow_lt_1_zero 0.9) with (y := eps / Rabs gap) as [N HN].
    + rewrite Rabs_right; lra.
    + apply Rdiv_lt_0_compat; assumption.
    + exists N. intros n Hn. rewrite Rabs_mult.
      specialize (HN n Hn).
      apply (Rmult_lt_compat_r (Rabs gap)) in HN; [|exact Hpos].
      replace (eps / Rabs gap * Rabs gap) with eps in HN by (field; lra).
      exact HN.
Qed.

(** C6.  A frame leaves the target alone and moves the current distance by a
    tenth of the gap, so the gap is multiplied by exactly 0.9; and for every
    [eps > 0] there is a number of frames from which on the current distance
    is within [eps] of the target. *)
Theorem C6_zoom_gap_decays (s : State) :
  rowInRange s ->
  (forall t, exists s', animate t s = Some s' /\
     targetZoom s' = targetZoom s /\
     currentZoom s' = currentZoom s + (targetZoom s - currentZoom s) * 0.1 /\
     Rabs (targetZoom s' - currentZoom s') = 0.9 * Rabs (targetZoom s - currentZoom s)) /\
  (forall eps, 0 < eps ->
     exists N : nat, forall ts, (N <= List.length ts)%nat ->
       exists s', frames ts s = Some s' /\
         Rabs (targetZoom s' - currentZoom s') < eps).
Proof.
  intros Hrange. split.
  - intros t.
    destruct (animate_frame t s Hrange) as (s' & Ha & _ & (_ & _ & _ & Ht) & Hz & _).
    exists s'. split; [exact Ha|]. split; [exact Ht|]. split; [exact Hz|].
    rewrite Ht, Hz.
    replace (targetZoom s - (currentZoom s + (targetZoom s - currentZoom s) * 0.1))
      with (0.9 * (targetZoom s - currentZoom s)) by lra.
    rewrite Rabs_mult, (Rabs_right 0.9); lra.
  - intros eps Heps.
    destruct (geometric_gap (targetZoom s - currentZoom s) eps Heps) as [N HN].
    exists N. intros ts Hlen.
    destruct (frames_zoom ts s Hrange) as (s' & Hr & _ & Hgap).
    exists s'. split; [exact Hr|]. rewrite Hgap. apply HN, Hlen.
Qed.

(** ** Pinch and wheel *)

Lemma initialCamera_distance : 10 < vlength initialCamera < 11.
Proof.
  unfold vlength, initialCamera. cbn [v_x v_y v_z].
  replace (6 * 6 + 6 * 6 + 6 * 6) with 108 by lra.
  assert (Hlo : sqrt (10 * 10) < sqrt 108) by (apply sqrt_lt_1_alt; lra).
  assert (Hhi : sqrt 108 < sqrt (11 * 11)) by (apply sqrt_lt_1_alt; lra).
  rewrite sqrt_square in Hlo, Hhi by lra. split; assumption.
Qed.

Lemma initialState_target_in_bounds : minZoom <= targetZoom initialState <= maxZoom.
Proof.
  pose proof initialCamera_distance. unfold minZoom, maxZoom. simpl. lra.
Qed.

(** The state after a wheel event of 100 at the start of a session: the
    target has gone to [maxZoom] while the camera is still where the set-up
    put it, between 10 and 11 away. *)
Lemma wheel_opens_a_gap :
  rowInRange (after (onWheel 100 initialState)) /\
  targetZoom (after (onWheel 100 initialState)) = 20 /\
  currentZoom (after (onWheel 100 initialState)) = vlength initialCamera.
Proof.
  split; [unfold rowInRange; simpl; lia|]. split; [|reflexivity].
  cbn [onWheel after]. rewrite zoom_target.
  change (targetZoom initialState) with (vlength initialCamera).
  pose proof initialCamera_distance as Hc.
  unfold minZoom, maxZoom, zoomSpeed, Rmax, Rmin. repeat destruct Rle_dec; lra.
Qed.

(** C6 after a wheel event of 100 at the start of a session, where the
    target is 20 and the current distance is more than 9 short of it: each
    frame multiplies that gap by 0.9, and the frames bring it below any
    [eps]. *)
Lemma C6_zoom_gap_decays_witness :
  rowInRange (after (onWheel 100 initialState)) /\
  9 < targetZoom (after (onWheel 100 initialState))
        - currentZoom (after (onWheel 100 initialState)) /\
  (forall t, exists s', animate t (after (onWheel 100 initialState)) = Some s' /\
     targetZoom s' = targetZoom (after (onWheel 100 initialState)) /\
     currentZoom s' =
       currentZoom (after (onWheel 100 initialState))
       + (targetZoom (after (onWheel 100 initialState))
          - currentZoom (after (onWheel 100 initialState))) * 0.1 /\
     Rabs (targetZoom s' - currentZoom s') =
       0.9 * Rabs (targetZoom (after (onWheel 100 initialState))
                   - currentZoom (after (onWheel 100 initialState)))) /\
  (forall eps, 0 < eps ->
     exists N : nat, forall ts, (N <= List.length ts)%nat ->
       exists s', frames ts (after (onWheel 100 initialState)) = Some s' /\
         Rabs (targetZoom s' - currentZoom s') < eps).
Proof.
  destruct wheel_opens_a_gap as (Hrange & HT & Hc).
  split; [exact Hrange|]. split.
  - rewrite HT, Hc. pose proof initialCamera_distance. lra.
  - apply (C6_zoom_gap_decays (after (onWheel 100 initialState)) Hrange).
Defined.

(** C7, as the code has it.  A two-finger touch-move passes the zoom
    controller [previousDistance - currentDistance].  Fingers that have closed
    give a positive delta, which moves the target distance away (zoom out);
    fingers that have spread give a negative delta, which brings it closer
    (zoom in), the same direction as a wheel event with a negative [deltaY]. *)
Theorem C7_pinch_delta_and_direction
    (f : Quaternion -> Euler) (t0 t1 : Touch) (s : State) :
  minZoom <= targetZoom s <= maxZoom ->
  after (onTouchMove f [t0; t1] s) =
    set_previousTouchDistance (touchSpread t0 t1)
      (zoom (previousTouchDistance s - touchSpread t0 t1) s) /\
  (touchSpread t0 t1 < previousTouchDistance s ->
     0 < previousTouchDistance s - touchSpread t0 t1 /\
     targetZoom s <= targetZoom (after (onTouchMove f [t0; t1] s)) /\
     (targetZoom s < maxZoom ->
        targetZoom s < targetZoom (after (onTouchMove f [t0; t1] s)))) /\
  (previousTouchDistance s < touchSpread t0 t1 ->
     previousTouchDistance s - touchSpread t0 t1 < 0 /\
     targetZoom (after (onTouchMove f [t0; t1] s)) <= targetZoom s /\
     (minZoom < targetZoom s ->
        targetZoom (after (onTouchMove f [t0; t1] s)) < targetZoom s)) /\
  (forall deltaY, deltaY < 0 ->
     targetZoom (after (onWheel deltaY s)) <= targetZoom s /\
     (minZoom < targetZoom s -> targetZoom (after (onWheel deltaY s)) < targetZoom s)).
Proof.
  intros Hb. split; [reflexivity|].
  cbn [onTouchMove onWheel after]. split; [|split].
  - intros Hclose. split; [lra|].
    apply (zoom_out (previousTouchDistance s - touchSpread t0 t1) s Hb). lra.
  - intros Hspread. split; [lra|].
    apply (zoom_in (previousTouchDistance s - touchSpread t0 t1) s Hb). lra.
  - intros deltaY Hneg. apply (zoom_in deltaY s Hb Hneg).
Qed.

(** C7 at the start of a session, on two touch points 5 apart. *)
Lemma C7_pinch_delta_and_direction_witness :
  after (onTouchMove eulerUnread [mkTouch 0 0 0 0; mkTouch 3 4 3 4] initialState) =
    set_previousTouchDistance (touchSpread (mkTouch 0 0 0 0) (mkTouch 3 4 3 4))
      (zoom (previousTouchDistance initialState
               - touchSpread (mkTouch 0 0 0 0) (mkTouch 3 4 3 4)) initialState).
Proof.
  apply (C7_pinch_delta_and_direction eulerUnread (mkTouch 0 0 0 0) (mkTouch 3 4 3 4)
           initialState initialState_target_in_bounds).
Defined.

(** C7 as stated fails: two fingers put down 10 apart and moved to 5 apart
    have closed, yet the delta handed to the zoom controller is [10 - 5 = 5],
    positive, and the target distance grows by 0.5: the view zooms out. *)
Lemma C7_closing_fingers_zoom_out :
  previousTouchDistance
    (after (onTouchStart [mkTouch 0 0 0 0; mkTouch 6 8 6 8] initialState)) = 10 /\
  touchSpread (mkTouch 0 0 0 0) (mkTouch 3 4 3 4) = 5 /\
  after (onTouchMove eulerUnread [mkTouch 0 0 0 0; mkTouch 3 4 3 4]
           (after (onTouchStart [mkTouch 0 0 0 0; mkTouch 6 8 6 8] initialState))) =
    set_previousTouchDistance 5
      (zoom (10 - 5)
         (after (onTouchStart [mkTouch 0 0 0 0; mkTouch 6 8 6 8] initialState))) /\
  targetZoom
    (after (onTouchMove eulerUnread [mkTouch 0 0 0 0; mkTouch 3 4 3 4]
              (after (onTouchStart [mkTouch 0 0 0 0; mkTouch 6 8 6 8]
                        initialState)))) =
    targetZoom initialState + 0.5.
Proof.
  assert (H10 : touchSpread (mkTouch 0 0 0 0) (mkTouch 6 8 6 8) = 10).
  { unfold touchSpread. cbn [pageX pageY]. apply hypot_of_square; lra. }
  assert (H5 : touchSpread (mkTouch 0 0 0 0) (mkTouch 3 4 3 4) = 5).
  { unfold touchSpread. cbn [pageX pageY]. apply hypot_of_square; lra. }
  split; [exact H10|]. split; [exact H5|].
  cbn [onTouchStart onTouchMove after]. rewrite H10, H5. split; [reflexivity|].
  change (targetZoom (zoom (10 - 5) (set_previousTouchDistance 10 initialState))
          = targetZoom initialState + 0.5).
  rewrite zoom_target.
  change (targetZoom (set_previousTouchDistance 10 initialState))
    with (targetZoom initialState).
  change (targetZoom initialState) with (vlength initialCamera).
  pose proof initialCamera_distance as Hc.
  unfold minZoom, maxZoom, zoomSpeed, Rmax, Rmin. repeat destruct Rle_dec; lra.
Qed.

(** * The orientation controller *)

Lemma lengthSq_nonneg (q : Quaternion) : 0 <= lengthSq q.
Proof. unfold lengthSq. nra. Qed.

Lemma length_one (q : Quaternion) : THREE.length q = 1 <-> lengthSq q = 1.
Proof.
  unfold THREE.length. split; intros H.
  - rewrite <- (sqrt_sqrt (lengthSq q)) by apply lengthSq_nonneg. rewrite H. lra.
  - rewrite H. apply sqrt_1.
Qed.

Lemma lengthSq_setFromEuler (e : Euler) : lengthSq (setFromEuler e) = 1.
Proof.
  unfold lengthSq, setFromEuler. cbn [q_x q_y q_z q_w].
  pose proof (sin2_cos2 (e_x e / 2)) as H1.
  pose proof (sin2_cos2 (e_y e / 2)) as H2.
  pose proof (sin2_cos2 (e_z e / 2)) as H3.
  unfold Rsqr in H1, H2, H3.
  set (c1 := cos (e_x e / 2)) in *. set (s1 := sin (e_x e / 2)) in *.
  set (c2 := cos (e_y e / 2)) in *. set (s2 := sin (e_y e / 2)) in *.
  set (c3 := cos (e_z e / 2)) in *. set (s3 := sin (e_z e / 2)) in *.
  transitivity ((s1 * s1 + c1 * c1) * (s2 * s2 + c2 * c2) * (s3 * s3 + c3 * c3)).
  - ring.
  - rewrite H1, H2, H3. ring.
Qed.

Lemma lengthSq_multiplyQuaternions (a b : Quaternion) :
  lengthSq (multiplyQuaternions a b) = lengthSq a * lengthSq b.
Proof. unfold lengthSq, multiplyQuaternions. cbn [q_x q_y q_z q_w]. ring. Qed.

(** What a drag step does while a drag is active. *)
Lemma drag_active (f : Quaternion -> Euler) (x y : R) (s : State) :
  isDragging s = true ->
  quaternion (group (drag f x y s)) =
    multiplyQuaternions
      (setFromEuler
         (mkEuler ((y - p_y (previousMousePosition s)) * dragRotationSpeed)
                  ((x - p_x (previousMousePosition s)) * dragRotationSpeed) 0))
      (quaternion (group s)) /\
  previousMousePosition (drag f x y s) = mkPoint x y /\
  isDragging (drag f x y s) = true.
Proof.
  intros Hd. unfold drag. rewrite Hd. cbn. rewrite Hd. auto.
Qed.

Lemma drag_inactive (f : Quaternion -> Euler) (x y : R) (s : State) :
  isDragging s = false -> drag f x y s = s.
Proof. intros Hd. unfold drag. rewrite Hd. reflexivity. Qed.

Lemma drag_keeps_unit (f : Quaternion -> Euler) (x y : R) (s : State) :
  lengthSq (quaternion (group s)) = 1 ->
  lengthSq (quaternion (group (drag f x y s))) = 1.
Proof.
  intros Hu. destruct (isDragging s) eqn:Hd.
  - destruct (drag_active f x y s Hd) as (Hq & _). rewrite Hq.
    rewrite lengthSq_multiplyQuaternions, lengthSq_setFromEuler, Hu. lra.
  - rewrite drag_inactive by exact Hd. exact Hu.
Qed.

Lemma dragMoves_keep_unit (f : Quaternion -> Euler) (ps : list Point) :
  forall s : State,
    lengthSq (quaternion (group s)) = 1 ->
    lengthSq (quaternion (group (dragMoves f ps s))) = 1.
Proof.
  unfold dragMoves. induction ps as [|p rest IH]; intros s Hu; simpl.
  - exact Hu.
  - apply IH. unfold onMouseMove. apply drag_keeps_unit, Hu.
Qed.

(** C4.  From a unit orientation, every sequence of drag moves leaves the
    orientation quaternion of length 1, hence within every [eps > 0] of 1. *)
Theorem C4_orientation_stays_unit
    (f : Quaternion -> Euler) (ps : list Point) (s : State) :
  THREE.length (quaternion (group s)) = 1 ->
  THREE.length (quaternion (group (dragMoves f ps s))) = 1 /\
  forall eps, 0 < eps ->
    Rabs (THREE.length (quaternion (group (dragMoves f ps s))) - 1) < eps.
Proof.
  intros Hu. apply length_one in Hu.
  assert (H1 : THREE.length (quaternion (group (dragMoves f ps s))) = 1).
  { apply length_one. apply dragMoves_keep_unit, Hu. }
  split; [exact H1|]. intros eps Heps.
  rewrite H1. replace (1 - 1) with 0 by lra. rewrite Rabs_R0. exact Heps.
Qed.

(** C4 on a drag begun at (100, 100) that visits (110, 105) and (90, 140). *)
Lemma C4_orientation_stays_unit_witness :
  THREE.length
    (quaternion (group
       (dragMoves eulerUnread [mkPoint 110 105; mkPoint 90 140]
          (onMouseDown 100 100 initialState)))) = 1.
Proof.
  apply (C4_orientation_stays_unit eulerUnread [mkPoint 110 105; mkPoint 90 140]
           (onMouseDown 100 100 initialState)).
  apply length_one. unfold lengthSq. simpl. lra.
Defined.

(** The single-finger drag of the scenario, from a touch at (100, 100) to one
    at (110, 105). *)
Lemma touch_drag_scenario (f : Quaternion -> Euler) (s : State) :
  quaternion (group
    (after (onTouchMove f [mkTouch 110 105 110 105]
              (after (onTouchStart [mkTouch 100 100 100 100] s))))) =
  multiplyQuaternions (setFromEuler (mkEuler 0.05 0.10 0)) (quaternion (group s)).
Proof.
  cbn [onTouchStart onTouchMove after clientX clientY].
  destruct (drag_active f 110 105 (startDragging 100 100 s) eq_refl) as (Hq & _).
  rewrite Hq. cbn. unfold dragRotationSpeed. do 3 f_equal; lra.
Qed.

(** C2, as the code has it.  While a drag is active, a move by [(dx, dy)]
    pixels builds the quaternion of the Euler angles
    [(dy * dragRotationSpeed, dx * dragRotationSpeed, 0)], order XYZ, and
    multiplies it onto the orientation from the left.  A single-finger drag
    from (100, 100) to (110, 105) has [dx = 10] and [dy = 5], so its angles
    are [(5 * 0.01, 10 * 0.01, 0) = (0.05, 0.10, 0)] radians. *)
Theorem C2_drag_multiplies_from_the_left
    (f : Quaternion -> Euler) (x y : R) (s : State) :
  isDragging s = true ->
  quaternion (group (drag f x y s)) =
    multiplyQuaternions
      (setFromEuler
         (mkEuler ((y - p_y (previousMousePosition s)) * dragRotationSpeed)
                  ((x - p_x (previousMousePosition s)) * dragRotationSpeed) 0))
      (quaternion (group s)) /\
  previousMousePosition (drag f x y s) = mkPoint x y /\
  dragRotationSpeed = 0.01 /\
  quaternion (group
    (after (onTouchMove f [mkTouch 110 105 110 105]
              (after (onTouchStart [mkTouch 100 100 100 100] s))))) =
    multiplyQuaternions (setFromEuler (mkEuler 0.05 0.10 0)) (quaternion (group s)).
Proof.
  intros Hd. destruct (drag_active f x y s Hd) as (Hq & Hp & _).
  split; [exact Hq|]. split; [exact Hp|]. split; [reflexivity|].
  apply touch_drag_scenario.
Qed.

(** C2 on a mouse drag begun at (100, 100) and moved to (110, 105). *)
Lemma C2_drag_multiplies_from_the_left_witness :
  quaternion (group (drag eulerUnread 110 105 (onMouseDown 100 100 initialState))) =
    multiplyQuaternions
      (setFromEuler (mkEuler ((105 - 100) * dragRotationSpeed)
                             ((110 - 100) * dragRotationSpeed) 0))
      identity.
Proof.
  apply (C2_drag_multiplies_from_the_left eulerUnread 110 105
           (onMouseDown 100 100 initialState) eq_refl).
Defined.

Lemma cos_smaller (a b : R) : 0 <= a -> a < b -> b <= 1 -> 0 < cos b < cos a.
Proof.
  intros Ha Hab Hb. pose proof PI2_1 as Hpi. split.
  - apply cos_gt_0; lra.
  - apply cos_decreasing_1; lra.
Qed.

(** C2 as stated fails on its own scenario: the drag from (100, 100) to
    (110, 105) turns the unrotated grid by the angles (0.05, 0.10, 0), and the
    orientation this gives is not the one of the angles
    (0.05 * 0.01, 0.10 * 0.01, 0). *)
Lemma C2_scenario_angles_are_not_scaled_twice :
  quaternion (group
    (after (onTouchMove eulerUnread [mkTouch 110 105 110 105]
              (after (onTouchStart [mkTouch 100 100 100 100] initialState))))) =
    multiplyQuaternions (setFromEuler (mkEuler 0.05 0.10 0)) identity /\
  multiplyQuaternions (setFromEuler (mkEuler 0.05 0.10 0)) identity <>
    multiplyQuaternions (setFromEuler (mkEuler (0.05 * 0.01) (0.10 * 0.01) 0)) identity.
Proof.
  split; [apply touch_drag_scenario|].
  intros H. apply (f_equal q_w) in H.
  unfold multiplyQuaternions, setFromEuler, identity in H. cbn [q_x q_y q_z q_w e_x e_y e_z] in H.
  replace (0 / 2) with 0 in H by lra. rewrite sin_0, cos_0 in H.
  destruct (cos_smaller (0.05 * 0.01 / 2) (0.05 / 2)) as [Hx0 Hx]; try lra.
  destruct (cos_smaller (0.10 * 0.01 / 2) (0.10 / 2)) as [Hy0 Hy]; try lra.
  nra.
Qed.

(** The orientation is a unit quaternion in every state a session reaches:
    a drag multiplies unit quaternions, the auto-rotation rebuilds the
    quaternion from Euler angles. *)
Lemma timedRowRotation_group (time : R) (s s' : State) :
  timedRowRotation time s = Some s' -> group s' = group s.
Proof.
  unfold timedRowRotation.
  destruct (negb (isRotating s) && (time - rotationStartTime s >? pauseDuration));
    cbn [isRotating set_rotationStartTime set_isRotating];
    [ | destruct (isRotating s) ];
    repeat match goal with
           | |- context [if ?c then _ else _] => destruct c
           | |- context [match writeRow ?i ?a ?r with _ => _ end] => destruct (writeRow i a r)
           end;
    intros H; try discriminate H; injection H as <-; reflexivity.
Qed.

Lemma animate_group (time : R) (s s' : State) :
  animate time s = Some s' -> group s' = group (wholeCubeAutoRotation s).
Proof.
  unfold animate. destruct (timedRowRotation time (wholeCubeAutoRotation s)) as [s1|] eqn:E.
  - intros H. injection H as <-. destruct (smoothZoom_scheduler s1) as (_ & _ & Hg & _).
    rewrite Hg. apply timedRowRotation_group with (time := time), E.
  - discriminate.
Qed.

Lemma dispatch_keeps_unit (f : Quaternion -> Euler) (e : Event) (s s' : State) :
  lengthSq (quaternion (group s)) = 1 -> dispatch f e s = Some s' ->
  lengthSq (quaternion (group s')) = 1.
Proof.
  intros Hu Hd. destruct e as [t|x y|x y| |d|ts|ts| ]; simpl in Hd.
  - rewrite (animate_group _ _ _ Hd). unfold wholeCubeAutoRotation.
    destruct (isDragging s); cbn; [exact Hu | apply lengthSq_setFromEuler].
  - injection Hd as <-. exact Hu.
  - injection Hd as <-. apply drag_keeps_unit, Hu.
  - injection Hd as <-. exact Hu.
  - injection Hd as <-. exact Hu.
  - injection Hd as <-. destruct ts as [|t0 [|t1 [|t2 rest]]]; exact Hu.
  - injection Hd as <-. destruct ts as [|t0 [|t1 [|t2 rest]]]; cbn [onTouchMove after];
      [ exact Hu | apply drag_keeps_unit, Hu | exact Hu | exact Hu ].
  - injection Hd as <-. exact Hu.
Qed.

Lemma exec_keeps_unit (f : Quaternion -> Euler) (es : list Event) :
  forall s s' : State,
    lengthSq (quaternion (group s)) = 1 -> exec f es s = Some s' ->
    lengthSq (quaternion (group s')) = 1.
Proof.
  induction es as [|e rest IH]; intros s s' Hu Hrun; simpl in Hrun.
  - injection Hrun as <-. exact Hu.
  - destruct (dispatch f e s) as [s1|] eqn:E; [|discriminate].
    eapply IH; [|exact Hrun]. eapply dispatch_keeps_unit; eassumption.
Qed.

(** While a drag is active, an event that changes the orientation is a drag
    move: a mouse move or a single-finger touch move. *)
Lemma orientation_changes_only_by_drag
    (f : Quaternion -> Euler) (e : Event) (s s' : State) :
  isDragging s = true -> dispatch f e s = Some s' ->
  group s' = group s \/ (exists x y, e = MouseMove x y) \/ (exists t0, e = TouchMove [t0]).
Proof.
  intros Hdrag Hd. destruct e as [t|x y|x y| |d|ts|ts| ]; simpl in Hd.
  - left. rewrite (animate_group _ _ _ Hd). unfold wholeCubeAutoRotation.
    rewrite Hdrag. reflexivity.
  - left. injection Hd as <-. reflexivity.
  - right. left. eauto.
  - left. injection Hd as <-. reflexivity.
  - left. injection Hd as <-. reflexivity.
  - left. injection Hd as <-. destruct ts as [|t0 [|t1 [|t2 rest]]]; reflexivity.
  - destruct ts as [|t0 [|t1 [|t2 rest]]].
    + left. injection Hd as <-. reflexivity.
    + right. right. eauto.
    + left. injection Hd as <-. reflexivity.
    + left. injection Hd as <-. reflexivity.
  - left. injection Hd as <-. reflexivity.
Qed.

(** The camera keeps its direction and takes the smoothed distance: after a
    frame it is [currentZoom] away from the origin. *)
Lemma smoothZoom_camera_distance (s : State) :
  vlength (cameraPosition s) <> 0 -> 0 <= currentZoom (smoothZoom s) ->
  vlength (cameraPosition (smoothZoom s)) = currentZoom (smoothZoom s).
Proof.
  intros Hv Hz. unfold smoothZoom in *.
  cbn [cameraPosition set_cameraPosition set_currentZoom currentZoom] in *.
  set (z := currentZoom s + (targetZoom s - currentZoom s) * 0.1) in *.
  destruct (cameraPosition s) as [a b c]. unfold normalize, subVectors.
  cbn [v_x v_y v_z]. replace (a - 0) with a by lra. replace (b - 0) with b by lra.
  replace (c - 0) with c by lra.
  unfold vlength in Hv. cbn [v_x v_y v_z] in Hv.
  set (l := vlength (mkVector3 a b c)).
  assert (Hl : l = sqrt (a * a + b * b + c * c)) by reflexivity.
  destruct (Req_dec_T l 0) as [E|_]; [rewrite Hl in E; contradiction|].
  assert (Hll : l * l = a * a + b * b + c * c).
  { rewrite Hl. apply sqrt_sqrt. nra. }
  assert (Hl0 : l <> 0) by (rewrite Hl; exact Hv).
  unfold vlength, multiplyScalar. cbn [v_x v_y v_z].
  replace (a * (1 / l) * z * (a * (1 / l) * z) + b * (1 / l) * z * (b * (1 / l) * z)
           + c * (1 / l) * z * (c * (1 / l) * z))
    with (z * z).
  - apply sqrt_square, Hz.
  - transitivity ((a * a + b * b + c * c) / (l * l) * (z * z)).
    + rewrite <- Hll. field. exact Hl0.
    + field. exact Hl0.
Qed.

(** * The frame driver and the input translator *)

(** C8.  A frame ticked while a drag is active returns, leaves the grid
    orientation as it was, and still runs the row scheduler (one phase) and
    the zoom smoothing (a tenth of the gap); the frame is [animate] without
    its auto-rotation block.  While the drag is active an event that changes
    the orientation is a drag move.  Auto-rotation and drag rotation never
    both apply: in any state, one of them leaves the state as it is. *)
Theorem C8_no_auto_rotation_during_drag
    (f : Quaternion -> Euler) (time : R) (s : State) :
  isDragging s = true ->
  rowInRange s ->
  exists s', animate time s = Some s' /\
    group s' = group s /\
    isDragging s' = true /\
    Phase time s s' /\
    currentZoom s' = currentZoom s + (targetZoom s - currentZoom s) * 0.1 /\
    animate time s = option_map smoothZoom (timedRowRotation time s) /\
    (forall (e : Event) (s1 : State),
       dispatch f e s = Some s1 ->
       group s1 = group s \/ (exists x y, e = MouseMove x y) \/
       (exists t0, e = TouchMove [t0])) /\
    (forall (s0 : State) (x y : R),
       wholeCubeAutoRotation s0 = s0 \/ drag f x y s0 = s0).
Proof.
  intros Hd Hrange.
  destruct (animate_frame time s Hrange) as (s' & Ha & Hph & (Hd' & _) & Hz & Hg).
  exists s'. split; [exact Ha|]. split; [exact (Hg Hd)|]. split; [congruence|].
  split; [exact Hph|]. split; [exact Hz|]. split.
  - unfold animate, wholeCubeAutoRotation. rewrite Hd. cbn [negb].
    destruct (timedRowRotation time s); reflexivity.
  - split; [intros e s1; apply orientation_changes_only_by_drag, Hd|].
    intros s0 x y. destruct (isDragging s0) eqn:E.
    + left. unfold wholeCubeAutoRotation. rewrite E. reflexivity.
    + right. apply drag_inactive, E.
Qed.

(** C8 on the frame at 3001 ms of a session in which a drag began at
    (100, 100): the drag holds the orientation while row 0 starts to turn. *)
Lemma C8_no_auto_rotation_during_drag_witness :
  exists s', animate 3001 (onMouseDown 100 100 initialState) = Some s' /\
    group s' = group initialState /\
    isRotating s' = true.
Proof.
  destruct (C8_no_auto_rotation_during_drag eulerUnread 3001
              (onMouseDown 100 100 initialState) eq_refl)
    as (s' & Ha & Hg & _ & Hph & _).
  - unfold rowInRange. simpl. lia.
  - exists s'. split; [exact Ha|]. split; [exact Hg|].
    destruct Hph as [H1 H2 H3 H4 H5 H6 | H1 H2 H3 H4 H5 H6 | H1 H2 H3 H4 H5 H6 | H1 H2 H3 H4 H5 H6].
    + exfalso. unfold pauseDuration in H2. simpl in H2. lra.
    + exact H3.
    + exact H3.
    + discriminate H1.
Defined.

(** What the auto-rotation block does when no drag is active: both Euler
    angles grow by [wholeCubeRotationSpeed]. *)
Lemma auto_rotation_when_idle (s : State) :
  isDragging s = false ->
  rotation (group (wholeCubeAutoRotation s)) =
    mkEuler (e_x (rotation (group s)) + wholeCubeRotationSpeed)
            (e_y (rotation (group s)) + wholeCubeRotationSpeed)
            (e_z (rotation (group s))).
Proof.
  intros Hd. unfold wholeCubeAutoRotation. rewrite Hd. reflexivity.
Qed.

(** C9 on the code.  The wheel handler and the single-touch branches call
    [preventDefault]; a touch-start or touch-move with two touch points, or
    with none or more than two, does not. *)
Theorem C9_prevent_default_only_on_single_touch
    (f : Quaternion -> Euler) (touches : list Touch) (deltaY : R) (s : State) :
  defaultPrevented (onWheel deltaY s) = true /\
  defaultPrevented (onTouchStart touches s) = (List.length touches =? 1)%nat /\
  defaultPrevented (onTouchMove f touches s) = (List.length touches =? 1)%nat /\
  defaultPrevented
    (onTouchMove f [mkTouch 0 0 0 0; mkTouch 3 4 3 4] initialState) = false.
Proof.
  split; [reflexivity|].
  destruct touches as [|t0 [|t1 [|t2 rest]]]; repeat split; reflexivity.
Qed.

(** * Beyond the claims: sessions *)

(** ** What every event does *)

Lemma animate_camera (time : R) (s s' : State) :
  animate time s = Some s' ->
  cameraPosition s' =
    multiplyScalar (normalize (subVectors (cameraPosition s) (mkVector3 0 0 0)))
      (currentZoom s').
Proof.
  intros Ha. pose proof Ha as Hb. unfold animate in Hb.
  destruct (timedRowRotation time (wholeCubeAutoRotation s)) as [s1|] eqn:E; [|discriminate].
  injection Hb as <-.
  assert (Hc : cameraPosition s1 = cameraPosition s).
  { assert (H1 : cameraPosition (wholeCubeAutoRotation s) = cameraPosition s).
    { unfold wholeCubeAutoRotation. destruct (isDragging s); reflexivity. }
    rewrite <- H1. revert E. generalize (wholeCubeAutoRotation s). intros s0 E.
    unfold timedRowRotation in E.
    destruct (negb (isRotating s0) && (time - rotationStartTime s0 >? pauseDuration));
      cbn [isRotating set_rotationStartTime set_isRotating] in E;
      [ | destruct (isRotating s0) ];
      repeat match type of E with
             | context [if ?c then _ else _] => destruct c
             | context [match writeRow ?i ?a ?r with _ => _ end] => destruct (writeRow i a r)
             end;
      try discriminate E; injection E as <-; reflexivity. }
  unfold smoothZoom. cbn [cameraPosition set_cameraPosition set_currentZoom currentZoom].
  rewrite Hc. reflexivity.
Qed.

(** An input event returns, and writes neither the scheduler, nor the rows,
    nor the camera, nor the smoothed distance; the target distance it leaves
    alone or hands to [zoom]. *)
Lemma input_event_effect (f : Quaternion -> Euler) (e : Event) (s : State) :
  (forall t, e <> AnimationFrame t) ->
  exists s', dispatch f e s = Some s' /\ sameScheduler s s' /\
    currentZoom s' = currentZoom s /\ cameraPosition s' = cameraPosition s /\
    (targetZoom s' = targetZoom s \/ exists d, targetZoom s' = targetZoom (zoom d s)).
Proof.
  intros He.
  destruct (input_event_scheduler f e s He) as (s' & Hd & Hs).
  exists s'. split; [exact Hd|]. split; [exact Hs|].
  destruct e as [t|x y|x y| |d|ts|ts| ]; simpl in Hd;
    [ exfalso; apply (He t); reflexivity | injection Hd as <- .. ].
  - repeat split; left; reflexivity.
  - unfold onMouseMove, drag. destruct (isDragging s); repeat split; left; reflexivity.
  - repeat split; left; reflexivity.
  - repeat split. right. exists d. reflexivity.
  - destruct ts as [|t0 [|t1 [|t2 rest]]]; repeat split; left; reflexivity.
  - destruct ts as [|t0 [|t1 [|t2 rest]]]; cbn [onTouchMove after].
    + repeat split; left; reflexivity.
    + unfold drag. destruct (isDragging s); repeat split; left; reflexivity.
    + repeat split. right. eexists. reflexivity.
    + repeat split; left; reflexivity.
  - repeat split; left; reflexivity.
Qed.

Lemma event_cases (e : Event) :
  (exists t, e = AnimationFrame t) \/ (forall t, e <> AnimationFrame t).
Proof. destruct e; [left; eauto | right; discriminate ..]. Qed.

Lemma dispatch_returns (f : Quaternion -> Euler) (e : Event) (s : State) :
  rowInRange s -> exists s', dispatch f e s = Some s' /\ rowInRange s'.
Proof.
  intros Hr. destruct (event_cases e) as [[t ->] | He].
  - destruct (animate_frame t s Hr) as (s' & Ha & Hph & _).
    exists s'. split; [exact Ha|]. eapply Phase_rowInRange; eassumption.
  - destruct (input_event_scheduler f e s He) as (s' & Hd & (_ & E2 & _ & E4)).
    exists s'. split; [exact Hd|]. unfold rowInRange in *. rewrite E2, E4. exact Hr.
Qed.

(** A property that implies the active row exists and that every event keeps
    holds after every run, and every run returns. *)
Lemma exec_keeps (f : Quaternion -> Euler) (P : State -> Prop) :
  (forall s, P s -> rowInRange s) ->
  (forall e s s', P s -> dispatch f e s = Some s' -> P s') ->
  forall es s, P s -> exists s', exec f es s = Some s' /\ P s'.
Proof.
  intros Hrange Hstep. induction es as [|e rest IH]; intros s HP.
  - exists s. split; [reflexivity | exact HP].
  - destruct (dispatch_returns f e s (Hrange s HP)) as (s1 & Hd & _).
    destruct (IH s1 (Hstep e s s1 HP Hd)) as (s' & Hr & HP').
    exists s'. simpl. rewrite Hd. auto.
Qed.

Lemma threeRows_rowInRange (s : State) : threeRows s -> rowInRange s.
Proof. unfold threeRows, rowInRange. intros [H1 H2]. rewrite H1. exact H2. Qed.

Lemma threeRows_step (f : Quaternion -> Euler) (e : Event) (s s' : State) :
  threeRows s -> dispatch f e s = Some s' -> threeRows s'.
Proof.
  intros Ht Hd. pose proof (threeRows_rowInRange s Ht) as Hr.
  destruct Ht as [Hlen Hidx]. destruct (event_cases e) as [[t ->] | He].
  - destruct (animate_frame t s Hr) as (s1 & Ha & Hph & _).
    simpl in Hd. rewrite Ha in Hd. injection Hd as <-.
    pose proof (Phase_length _ _ _ Hph) as Hl.
    pose proof (Phase_rowInRange _ _ _ Hr Hph) as Hr'.
    unfold threeRows, rowInRange in *. rewrite Hl, Hlen in *. auto.
  - destruct (input_event_scheduler f e s He) as (s1 & Hd1 & (_ & E2 & _ & E4)).
    rewrite Hd in Hd1. injection Hd1 as <-.
    unfold threeRows. rewrite E2, E4. auto.
Qed.

Lemma initialState_threeRows : threeRows initialState.
Proof. unfold threeRows. simpl. split; [reflexivity | lia]. Qed.

(** X1.  No session makes [animate] throw: whatever events come, in whatever
    order and with whatever timestamps, the run returns, there are still
    three rows, and the active index names one of them. *)
Theorem X1_session_never_throws (f : Quaternion -> Euler) (es : list Event) :
  exists s, exec f es initialState = Some s /\
    List.length (rows s) = 3%nat /\ (currentRowIndex s < 3)%nat.
Proof.
  apply (exec_keeps f threeRows threeRows_rowInRange (threeRows_step f)).
  exact initialState_threeRows.
Qed.

(** ** Rows at rest *)

Lemma rowsAtRest_phase (time : R) (s s' : State) :
  rowsAtRest s -> Phase time s s' -> rowsAtRest s'.
Proof.
  unfold rowsAtRest, atRest. intros Hrest Hph j a Hj.
  phase_cases Hph.
  - rewrite P6 in Hj. rewrite P3. destruct (Hrest j a Hj) as [[H _]|H]; [congruence | auto].
  - destruct (Nat.eq_dec j (currentRowIndex s)) as [->|Hne].
    + rewrite (writeRow_same _ _ _ _ P6) in Hj. injection Hj as <-. auto.
    + rewrite (writeRow_other _ _ _ _ _ P6 Hne) in Hj.
      destruct (Hrest j a Hj) as [[H _]|H]; [congruence | auto].
  - destruct (Nat.eq_dec j (currentRowIndex s)) as [->|Hne].
    + left. rewrite P3, P4. auto.
    + rewrite (writeRow_other _ _ _ _ _ P6 Hne) in Hj.
      destruct (Hrest j a Hj) as [[_ H]|H]; [contradiction | auto].
  - destruct (Nat.eq_dec j (currentRowIndex s)) as [->|Hne].
    + rewrite (writeRow_same _ _ _ _ P6) in Hj. injection Hj as <-. auto.
    + rewrite (writeRow_other _ _ _ _ _ P6 Hne) in Hj.
      destruct (Hrest j a Hj) as [[_ H]|H]; [contradiction | auto].
Qed.

Lemma rowsAtRest_step (f : Quaternion -> Euler) (e : Event) (s s' : State) :
  threeRows s /\ rowsAtRest s -> dispatch f e s = Some s' ->
  threeRows s' /\ rowsAtRest s'.
Proof.
  intros [Ht Hrest] Hd. split; [eapply threeRows_step; eassumption|].
  destruct (event_cases e) as [[t ->] | He].
  - destruct (animate_frame t s (threeRows_rowInRange s Ht)) as (s1 & Ha & Hph & _).
    simpl in Hd. rewrite Ha in Hd. injection Hd as <-.
    eapply rowsAtRest_phase; eassumption.
  - destruct (input_event_scheduler f e s He) as (s1 & Hd1 & (E1 & E2 & _ & E4)).
    rewrite Hd in Hd1. injection Hd1 as <-.
    unfold rowsAtRest in *. rewrite E1, E2, E4. exact Hrest.
Qed.

Lemma initialState_rowsAtRest : rowsAtRest initialState.
Proof.
  unfold rowsAtRest, atRest. intros j a Hj. right. left.
  apply nth_error_In in Hj. simpl in Hj.
  destruct Hj as [<-|[<-|[<-|[]]]]; reflexivity.
Qed.

(** X2.  In every state a session reaches, with any events and any
    timestamps, a row's angle is exactly 0 or exactly [PI / 2] unless it is
    the active row of a rotation in progress: at most one row is ever between
    the two. *)
Theorem X2_only_the_turning_row_is_off_rest (f : Quaternion -> Euler) (es : list Event) :
  exists s, exec f es initialState = Some s /\
    forall j a, nth_error (rows s) j = Some a ->
      (isRotating s = true /\ j = currentRowIndex s) \/ a = 0 \/ a = PI / 2.
Proof.
  destruct (exec_keeps f (fun s => threeRows s /\ rowsAtRest s)) with (es := es) (s := initialState)
    as (s & Hrun & _ & Hrest).
  - intros s [Ht _]. apply threeRows_rowInRange, Ht.
  - apply rowsAtRest_step.
  - split; [exact initialState_threeRows | exact initialState_rowsAtRest].
  - exists s. split; [exact Hrun | exact Hrest].
Qed.

(** ** The zoom distances *)

Lemma zoomInBounds_step (f : Quaternion -> Euler) (e : Event) (s s' : State) :
  threeRows s /\ zoomInBounds s -> dispatch f e s = Some s' ->
  threeRows s' /\ zoomInBounds s'.
Proof.
  intros [Ht [HT Hc]] Hd. split; [eapply threeRows_step; eassumption|].
  destruct (event_cases e) as [[t ->] | He].
  - destruct (animate_frame t s (threeRows_rowInRange s Ht))
      as (s1 & Ha & _ & (_ & _ & _ & ET) & Ez & _).
    simpl in Hd. rewrite Ha in Hd. injection Hd as <-.
    unfold zoomInBounds. rewrite ET, Ez. split; [exact HT|].
    unfold minZoom, maxZoom in *. lra.
  - destruct (input_event_effect f e s He) as (s1 & Hd1 & _ & Ec & _ & ET).
    rewrite Hd in Hd1. injection Hd1 as <-.
    unfold zoomInBounds. rewrite Ec. split; [|exact Hc].
    destruct ET as [-> | [d ->]]; [exact HT|].
    rewrite zoom_target. apply clamp_bounds.
Qed.

Lemma initialState_zoomInBounds : zoomInBounds initialState.
Proof.
  pose proof initialState_target_in_bounds as H. split; exact H.
Qed.

(** X3.  In every state a session reaches, the target distance and the
    smoothed distance both lie within [[minZoom, maxZoom]]: the target is
    clamped when it is written, and smoothing only moves the current distance
    towards it. *)
Theorem X3_zoom_distances_stay_in_bounds (f : Quaternion -> Euler) (es : list Event) :
  exists s, exec f es initialState = Some s /\
    minZoom <= targetZoom s <= maxZoom /\ minZoom <= currentZoom s <= maxZoom.
Proof.
  destruct (exec_keeps f (fun s => threeRows s /\ zoomInBounds s)) with (es := es) (s := initialState)
    as (s & Hrun & _ & Hz).
  - intros s [Ht _]. apply threeRows_rowInRange, Ht.
  - apply zoomInBounds_step.
  - split; [exact initialState_threeRows | exact initialState_zoomInBounds].
  - exists s. split; [exact Hrun | exact Hz].
Qed.

Lemma pow_09_bounds (n : nat) : 0 <= 0.9 ^ n <= 1.
Proof.
  split.
  - apply pow_le. lra.
  - rewrite <- (pow1 n). apply pow_incr. lra.
Qed.

(** X4.  Smoothing never overshoots: after any number of frames with no zoom
    input the current distance lies between where it started and the target,
    on the side it started on. *)
Theorem X4_smoothing_never_overshoots (ts : list R) (s : State) :
  rowInRange s ->
  exists s', frames ts s = Some s' /\ targetZoom s' = targetZoom s /\
    (currentZoom s <= targetZoom s ->
       currentZoom s <= currentZoom s' <= targetZoom s) /\
    (targetZoom s <= currentZoom s ->
       targetZoom s <= currentZoom s' <= currentZoom s).
Proof.
  intros Hr. destruct (frames_zoom ts s Hr) as (s' & Hrun & HT & Hgap).
  exists s'. split; [exact Hrun|]. split; [exact HT|].
  pose proof (pow_09_bounds (List.length ts)) as Hp. rewrite HT in Hgap.
  set (k := 0.9 ^ List.length ts) in *.
  split; intros Hside; nra.
Qed.

(** X4 on three frames after a wheel event of 100 at the start of a session,
    where the current distance is below the target: it rises, and stays at
    or below the target. *)
Lemma X4_smoothing_never_overshoots_witness :
  currentZoom (after (onWheel 100 initialState))
    < targetZoom (after (onWheel 100 initialState)) /\
  exists s', frames [0; 16; 33] (after (onWheel 100 initialState)) = Some s' /\
    targetZoom s' = targetZoom (after (onWheel 100 initialState)) /\
    currentZoom (after (onWheel 100 initialState)) <= currentZoom s'
      <= targetZoom (after (onWheel 100 initialState)).
Proof.
  destruct wheel_opens_a_gap as (Hrange & HT & Hc).
  assert (Hgap : currentZoom (after (onWheel 100 initialState))
                 < targetZoom (after (onWheel 100 initialState))).
  { rewrite HT, Hc. pose proof initialCamera_distance. lra. }
  split; [exact Hgap|].
  destruct (X4_smoothing_never_overshoots [0; 16; 33] (after (onWheel 100 initialState)) Hrange)
    as (s' & Hrun & HT' & Hbelow & _).
  exists s'. split; [exact Hrun|]. split; [exact HT'|]. apply Hbelow. lra.
Defined.

(** ** The camera *)

Lemma vlength_multiplyScalar (v : Vector3) (k : R) :
  0 <= k -> vlength (multiplyScalar v k) = vlength v * k.
Proof.
  intros Hk. destruct v as [a b c]. unfold vlength, multiplyScalar. cbn [v_x v_y v_z].
  replace (a * k * (a * k) + b * k * (b * k) + c * k * (c * k))
    with ((a * a + b * b + c * c) * (k * k)) by ring.
  rewrite sqrt_mult; [| nra | nra]. rewrite (sqrt_square k Hk). reflexivity.
Qed.

Lemma vlength_nonneg (v : Vector3) : 0 <= vlength v.
Proof. apply sqrt_pos. Qed.

Lemma normalize_unit (v : Vector3) : vlength v <> 0 -> vlength (normalize v) = 1.
Proof.
  intros Hv. unfold normalize. destruct (Req_dec_T (vlength v) 0) as [E|_]; [contradiction|].
  pose proof (vlength_nonneg v) as Hp.
  rewrite vlength_multiplyScalar.
  - field. exact Hv.
  - assert (0 < / vlength v) by (apply Rinv_0_lt_compat; lra). lra.
Qed.

Lemma minus_origin (v : Vector3) : subVectors v (mkVector3 0 0 0) = v.
Proof.
  destruct v as [a b c]. unfold subVectors. cbn [v_x v_y v_z]. f_equal; lra.
Qed.

(** Normalizing a unit vector stretched by a positive factor gives the unit
    vector back. *)
Lemma normalize_stretched (u : Vector3) (k : R) :
  vlength u = 1 -> 0 < k -> normalize (multiplyScalar u k) = u.
Proof.
  intros Hu Hk. unfold normalize.
  rewrite (vlength_multiplyScalar u k) by lra. rewrite Hu.
  destruct (Req_dec_T (1 * k) 0) as [E|_]; [lra|].
  destruct u as [a b c]. unfold multiplyScalar. cbn [v_x v_y v_z].
  f_equal; field; lra.
Qed.

Lemma initialCamera_unit : vlength (normalize initialCamera) = 1.
Proof. apply normalize_unit. pose proof initialCamera_distance. lra. Qed.

Lemma cameraOnRay_step (f : Quaternion -> Euler) (e : Event) (s s' : State) :
  (threeRows s /\ zoomInBounds s) /\ cameraOnRay s -> dispatch f e s = Some s' ->
  (threeRows s' /\ zoomInBounds s') /\ cameraOnRay s'.
Proof.
  intros [Hz Hc] Hd. pose proof (zoomInBounds_step f e s s' Hz Hd) as Hz'.
  split; [exact Hz'|]. destruct Hz as [Ht [_ Hcur]].
  destruct (event_cases e) as [[t ->] | He].
  - simpl in Hd. unfold cameraOnRay in *.
    rewrite (animate_camera t s s' Hd), minus_origin, Hc.
    rewrite normalize_stretched; [reflexivity | exact initialCamera_unit |].
    unfold minZoom in Hcur. lra.
  - destruct (input_event_effect f e s He) as (s1 & Hd1 & _ & Ec & Ecam & _).
    rewrite Hd in Hd1. injection Hd1 as <-.
    unfold cameraOnRay in *. rewrite Ecam, Ec. exact Hc.
Qed.

Lemma initialState_cameraOnRay : cameraOnRay initialState.
Proof.
  unfold cameraOnRay. cbn [cameraPosition currentZoom initialState].
  pose proof initialCamera_distance as Hd.
  unfold normalize. destruct (Req_dec_T (vlength initialCamera) 0) as [E|_]; [lra|].
  set (l := vlength initialCamera) in *.
  unfold multiplyScalar, initialCamera. cbn [v_x v_y v_z].
  f_equal; field; lra.
Qed.

(** X5.  In every state a session reaches the camera is on the ray from the
    origin through (6, 6, 6) on which the set-up put it, and its distance
    from the origin is the smoothed distance: zooming never turns the view,
    and no input moves the camera except through the smoothing. *)
Theorem X5_camera_stays_on_its_ray (f : Quaternion -> Euler) (es : list Event) :
  exists s, exec f es initialState = Some s /\
    cameraPosition s = multiplyScalar (normalize initialCamera) (currentZoom s) /\
    vlength (cameraPosition s) = currentZoom s.
Proof.
  destruct (exec_keeps f (fun s => (threeRows s /\ zoomInBounds s) /\ cameraOnRay s))
    with (es := es) (s := initialState) as (s & Hrun & (_ & _ & Hcur) & Hc).
  - intros s [[Ht _] _]. apply threeRows_rowInRange, Ht.
  - apply cameraOnRay_step.
  - split; [split|];
      [ exact initialState_threeRows | exact initialState_zoomInBounds
      | exact initialState_cameraOnRay ].
  - exists s. split; [exact Hrun|]. split; [exact Hc|].
    rewrite Hc, vlength_multiplyScalar, initialCamera_unit; [lra|].
    unfold minZoom in Hcur. lra.
Qed.

(** ** The orientation in a session *)

Lemma unit_step (f : Quaternion -> Euler) (e : Event) (s s' : State) :
  threeRows s /\ lengthSq (quaternion (group s)) = 1 -> dispatch f e s = Some s' ->
  threeRows s' /\ lengthSq (quaternion (group s')) = 1.
Proof.
  intros [Ht Hu] Hd. split.
  - eapply threeRows_step; eassumption.
  - eapply dispatch_keeps_unit; eassumption.
Qed.

(** X6.  In every state a session reaches, the grid orientation is a unit
    quaternion: a drag multiplies it by a unit quaternion and the
    auto-rotation rebuilds it from Euler angles. *)
Theorem X6_orientation_is_unit_in_every_session
    (f : Quaternion -> Euler) (es : list Event) :
  exists s, exec f es initialState = Some s /\
    THREE.length (quaternion (group s)) = 1.
Proof.
  destruct (exec_keeps f (fun s => threeRows s /\ lengthSq (quaternion (group s)) = 1))
    with (es := es) (s := initialState) as (s & Hrun & _ & Hu).
  - intros s [Ht _]. apply threeRows_rowInRange, Ht.
  - apply unit_step.
  - split; [exact initialState_threeRows|]. unfold lengthSq. simpl. lra.
  - exists s. split; [exact Hrun|]. apply length_one, Hu.
Qed.

(** ** Auto-rotation *)

Lemma animate_idle_group (time : R) (s s' : State) :
  isDragging s = false -> animate time s = Some s' ->
  group s' =
    mkObject3D
      (mkEuler (e_x (rotation (group s)) + wholeCubeRotationSpeed)
               (e_y (rotation (group s)) + wholeCubeRotationSpeed)
               (e_z (rotation (group s))))
      (setFromEuler
         (mkEuler (e_x (rotation (group s)) + wholeCubeRotationSpeed)
                  (e_y (rotation (group s)) + wholeCubeRotationSpeed)
                  (e_z (rotation (group s))))).
Proof.
  intros Hd Ha. rewrite (animate_group _ _ _ Ha).
  unfold wholeCubeAutoRotation. rewrite Hd. reflexivity.
Qed.

(** X7.  While no drag is active every frame adds [wholeCubeRotationSpeed]
    to the grid's Euler angles about X and about Y and leaves the one about Z:
    after [n] frames they have grown by [n * 0.005] whatever the timestamps,
    and the orientation quaternion is the one of these angles. *)
Theorem X7_auto_rotation_adds_up (ts : list R) (s : State) :
  isDragging s = false ->
  rowInRange s ->
  exists s', frames ts s = Some s' /\
    rotation (group s') =
      mkEuler (e_x (rotation (group s)) + INR (List.length ts) * 0.005)
              (e_y (rotation (group s)) + INR (List.length ts) * 0.005)
              (e_z (rotation (group s))) /\
    (ts <> [] -> quaternion (group s') = setFromEuler (rotation (group s'))).
Proof.
  intros Hd Hr. revert s Hd Hr. change 0.005 with wholeCubeRotationSpeed.
  induction ts as [|t rest IH]; intros s Hd Hr.
  - exists s. split; [reflexivity|]. split; [|congruence].
    destruct (rotation (group s)) as [x y z]. simpl. f_equal; lra.
  - destruct (animate_frame t s Hr) as (s1 & Ha & Hph & (Hd1 & _) & _).
    pose proof (animate_idle_group t s s1 Hd Ha) as Hg.
    destruct (IH s1) as (s' & Hrun & Hrot & Hq).
    { congruence. }
    { eapply Phase_rowInRange; eassumption. }
    exists s'. split; [simpl; rewrite Ha; exact Hrun|]. split.
    + rewrite Hrot, Hg. cbn [rotation e_x e_y e_z].
      change (List.length (t :: rest)) with (S (List.length rest)). rewrite S_INR.
      f_equal; lra.
    + intros _. destruct rest as [|t' rest'].
      * simpl in Hrun. injection Hrun as <-. rewrite Hg. reflexivity.
      * apply Hq. discriminate.
Qed.

(** X7 on the first two frames of a session. *)
Lemma X7_auto_rotation_adds_up_witness :
  exists s', frames [0; 16] initialState = Some s' /\
    rotation (group s') = mkEuler (0 + INR 2 * 0.005) (0 + INR 2 * 0.005) 0.
Proof.
  destruct (X7_auto_rotation_adds_up [0; 16] initialState eq_refl) as (s' & Hrun & Hrot & _).
  - unfold rowInRange. simpl. lia.
  - exists s'. split; [exact Hrun | exact Hrot].
Defined.

(** ** The timing of the scheduler *)

Lemma framesLog_spaced (ts : list R) :
  forall (s : State) (T : R),
    rowInRange s -> since T s ->
    exists sf log, framesLog ts s = Some (sf, log) /\ spaced T log.
Proof.
  induction ts as [|t rest IH]; intros s T Hr [Hidle Hbusy].
  - exists s, []. split; [reflexivity | exact I].
  - destruct (animate_frame t s Hr) as (s' & Ha & Hph & _).
    pose proof (Phase_rowInRange _ _ _ Hr Hph) as Hr'.
    phase_cases Hph; unfold cycle, pauseDuration, rotationDuration in *.
    + destruct (IH s' T Hr') as (sf & log & Hrun & Hsp).
      { split; intros H; [rewrite P5; apply Hidle, P1 | congruence]. }
      exists sf, log. split; [|exact Hsp].
      rewrite (framesLog_step _ _ _ _ _ _ Ha Hrun). unfold observe. rewrite P1. reflexivity.
    + destruct (IH s' T Hr') as (sf & log & Hrun & Hsp).
      { specialize (Hidle P1).
        split; intros H; [congruence | rewrite P5; unfold pauseDuration; lra]. }
      exists sf, log. split; [|exact Hsp].
      rewrite (framesLog_step _ _ _ _ _ _ Ha Hrun). unfold observe. rewrite P1. reflexivity.
    + destruct (IH s' T Hr') as (sf & log & Hrun & Hsp).
      { split; intros H; [congruence | rewrite P5; apply Hbusy, P1]. }
      exists sf, log. split; [|exact Hsp].
      rewrite (framesLog_step _ _ _ _ _ _ Ha Hrun). unfold observe. rewrite P1, P3. reflexivity.
    + destruct (IH s' t Hr') as (sf & log & Hrun & Hsp).
      { split; intros H; [rewrite P5; lra | congruence]. }
      exists sf, (observe t s s' ++ log). split.
      { apply (framesLog_step _ _ _ _ _ _ Ha Hrun). }
      unfold observe. rewrite P1, P3. simpl. split; [|exact Hsp].
      specialize (Hbusy P1). unfold cycle, pauseDuration, rotationDuration. lra.
Qed.

(** X8.  From a pause, the first row rotation completes more than one full
    cycle (pause plus rotation, 4000 ms) after the pause timer, and every
    later one more than a full cycle after the one before, whatever the frame
    timestamps: rotations never overlap or bunch up. *)
Theorem X8_completions_are_a_cycle_apart (ts : list R) (s : State) :
  rowInRange s ->
  isRotating s = false ->
  exists sf log, framesLog ts s = Some (sf, log) /\
    spaced (rotationStartTime s) log /\
    cycle = 4000.
Proof.
  intros Hr Hrot.
  destruct (framesLog_spaced ts s (rotationStartTime s) Hr) as (sf & log & Hrun & Hsp).
  - split; intros H; [lra | congruence].
  - exists sf, log. split; [exact Hrun|]. split; [exact Hsp|].
    unfold cycle, pauseDuration, rotationDuration. lra.
Qed.

(** X8 on a session that reaches 12003 ms. *)
Lemma X8_completions_are_a_cycle_apart_witness :
  exists sf log,
    framesLog [0; 3001; 4001; 7002; 8002; 11003; 12003] initialState = Some (sf, log) /\
    spaced (rotationStartTime initialState) log.
Proof.
  destruct (X8_completions_are_a_cycle_apart
              [0; 3001; 4001; 7002; 8002; 11003; 12003] initialState)
    as (sf & log & Hrun & Hsp & _).
  - unfold rowInRange. simpl. lia.
  - reflexivity.
  - exists sf, log. split; [exact Hrun | exact Hsp].
Defined.

Lemma writeRow_overwrite (i : nat) (a b : R) (rs rs1 : list R) :
  writeRow i a rs = Some rs1 -> writeRow i b rs1 = writeRow i b rs.
Proof.
  revert i rs1. induction rs as [|r rest IH]; intros i rs1 H; simpl in H.
  - discriminate.
  - destruct i as [|j].
    + injection H as <-. reflexivity.
    + destruct (writeRow j a rest) as [rest'|] eqn:E; [|discriminate].
      injection H as <-. simpl. rewrite (IH j rest' E). reflexivity.
Qed.

(** The scheduler variables after a frame are determined by those before. *)
Lemma Phase_functional (time : R) (s s1 s2 : State) :
  Phase time s s1 -> Phase time s s2 -> scheduler s1 = scheduler s2.
Proof.
  intros H1 H2. unfold scheduler.
  destruct H1 as [A1 A2 A3 A4 A5 A6 | A1 A2 A3 A4 A5 A6 | A1 A2 A3 A4 A5 A6 | A1 A2 A3 A4 A5 A6];
  destruct H2 as [B1 B2 B3 B4 B5 B6 | B1 B2 B3 B4 B5 B6 | B1 B2 B3 B4 B5 B6 | B1 B2 B3 B4 B5 B6];
    first [ congruence | lra ].
Qed.

(** X9.  Within a rotation the angle of the turning row never goes back: on
    two successive frames whose timestamps do not decrease, the second leaves
    the row at an angle at least that of the first, and at most [PI / 2]. *)
Theorem X9_angle_never_goes_back (t1 t2 : R) (s : State) :
  rowInRange s ->
  isRotating s = true ->
  t1 <= t2 ->
  exists s1 s2, animate t1 s = Some s1 /\ animate t2 s1 = Some s2 /\
    (isRotating s1 = true ->
       exists a1 a2,
         nth_error (rows s1) (currentRowIndex s) = Some a1 /\
         nth_error (rows s2) (currentRowIndex s) = Some a2 /\
         a1 <= a2 <= PI / 2).
Proof.
  intros Hr Hrot Ht.
  destruct (animate_frame t1 s Hr) as (s1 & Ha1 & Hph1 & _).
  pose proof (Phase_rowInRange _ _ _ Hr Hph1) as Hr1.
  destruct (animate_frame t2 s1 Hr1) as (s2 & Ha2 & Hph2 & _).
  exists s1, s2. split; [exact Ha1|]. split; [exact Ha2|]. intros Hrot1.
  pose proof PI_RGT_0 as Hpi.
  destruct Hph1 as [A1 A2 A3 A4 A5 A6 | A1 A2 A3 A4 A5 A6 | A1 A2 A3 A4 A5 A6 | A1 A2 A3 A4 A5 A6];
    try congruence.
  destruct Hph2 as [B1 B2 B3 B4 B5 B6 | B1 B2 B3 B4 B5 B6 | B1 B2 B3 B4 B5 B6 | B1 B2 B3 B4 B5 B6];
    try congruence; rewrite A4, A5 in *; unfold rotationDuration in *.
  - eexists; eexists. split; [eapply writeRow_same, A6|].
    split; [eapply writeRow_same, B6|].
    set (p1 := (t1 - rotationStartTime s) / 1000) in *.
    set (p2 := (t2 - rotationStartTime s) / 1000) in *.
    assert (Hp : p1 <= p2) by (unfold p1, p2; lra).
    nra.
  - eexists; eexists. split; [eapply writeRow_same, A6|].
    split; [eapply writeRow_same, B6|].
    set (p1 := (t1 - rotationStartTime s) / 1000) in *.
    nra.
Qed.

(** X9 on a rotation begun at 3001 ms, with frames at 3200 and 3500 ms. *)
Lemma X9_angle_never_goes_back_witness :
  exists s1 s2,
    animate 3200 (set_rotationStartTime 3001 (set_isRotating true initialState)) = Some s1 /\
    animate 3500 s1 = Some s2.
Proof.
  destruct (X9_angle_never_goes_back 3200 3500
              (set_rotationStartTime 3001 (set_isRotating true initialState)))
    as (s1 & s2 & H1 & H2 & _).
  - unfold rowInRange. simpl. lia.
  - reflexivity.
  - lra.
  - exists s1, s2. split; [exact H1 | exact H2].
Defined.

(** X10.  The row animation is tied to the clock, not to the frame count: a
    frame that neither starts nor ends a rotation can be dropped, and the
    next frame leaves the scheduler variables and every row angle as if it
    had come first. *)
Theorem X10_dropped_frames_do_not_matter (t1 t2 : R) (s : State) :
  rowInRange s ->
  (isRotating s = false -> t1 - rotationStartTime s <= pauseDuration) ->
  (isRotating s = true -> t1 - rotationStartTime s < rotationDuration) ->
  exists s1 s2 s2', animate t1 s = Some s1 /\ animate t2 s1 = Some s2 /\
    animate t2 s = Some s2' /\
    scheduler s2 = scheduler s2'.
Proof.
  intros Hr Hidle Hbusy.
  destruct (animate_frame t1 s Hr) as (s1 & Ha1 & Hph1 & _).
  pose proof (Phase_rowInRange _ _ _ Hr Hph1) as Hr1.
  destruct (animate_frame t2 s1 Hr1) as (s2 & Ha2 & Hph2 & _).
  destruct (animate_frame t2 s Hr) as (s2' & Ha2' & Hph2' & _).
  exists s1, s2, s2'. split; [exact Ha1|]. split; [exact Ha2|]. split; [exact Ha2'|].
  apply (Phase_functional t2 s); [|exact Hph2'].
  destruct Hph1 as [A1 A2 A3 A4 A5 A6 | A1 A2 A3 A4 A5 A6 | A1 A2 A3 A4 A5 A6 | A1 A2 A3 A4 A5 A6];
    unfold pauseDuration, rotationDuration in *.
  - eapply Phase_transport; [ | exact Hph2 | ]; unfold sameScheduler;
      repeat split; congruence.
  - specialize (Hidle A1). lra.
  - destruct Hph2 as [B1 B2 B3 B4 B5 B6 | B1 B2 B3 B4 B5 B6 | B1 B2 B3 B4 B5 B6 | B1 B2 B3 B4 B5 B6];
      try congruence; rewrite A4, A5 in *;
      rewrite (writeRow_overwrite _ _ _ _ _ A6) in B6.
    + apply PhaseTurn; auto.
    + apply PhaseSettle; auto.
  - specialize (Hbusy A1). lra.
Qed.

(** X10 on a pause: the frame at 1000 ms can be dropped before the one at
    3001 ms. *)
Lemma X10_dropped_frames_do_not_matter_witness :
  exists s1 s2 s2', animate 1000 initialState = Some s1 /\ animate 3001 s1 = Some s2 /\
    animate 3001 initialState = Some s2' /\
    scheduler s2 = scheduler s2'.
Proof.
  apply (X10_dropped_frames_do_not_matter 1000 3001 initialState).
  - unfold rowInRange. simpl. lia.
  - intros _. unfold pauseDuration. simpl. lra.
  - discriminate.
Defined.

(** * Beyond the claims: gestures *)

(** ** Quaternions of a drag *)

Lemma multiplyQuaternions_identity_l (q : Quaternion) : multiplyQuaternions identity q = q.
Proof.
  destruct q as [x y z w]. unfold multiplyQuaternions, identity. cbn [q_x q_y q_z q_w].
  f_equal; ring.
Qed.

Lemma multiplyQuaternions_assoc (a b c : Quaternion) :
  multiplyQuaternions a (multiplyQuaternions b c) =
  multiplyQuaternions (multiplyQuaternions a b) c.
Proof.
  unfold multiplyQuaternions. cbn [q_x q_y q_z q_w]. f_equal; ring.
Qed.

(** The quaternion of Euler angles with only the Y angle, and with only the
    X angle. *)
Lemma setFromEuler_about_Y (a b : R) :
  a = 0 -> setFromEuler (mkEuler a b 0) = mkQuaternion 0 (sin (b / 2)) 0 (cos (b / 2)).
Proof.
  intros ->. unfold setFromEuler. cbn [e_x e_y e_z].
  replace (0 / 2) with 0 by lra. rewrite sin_0, cos_0. f_equal; ring.
Qed.

Lemma setFromEuler_about_X (a b : R) :
  b = 0 -> setFromEuler (mkEuler a b 0) = mkQuaternion (sin (a / 2)) 0 0 (cos (a / 2)).
Proof.
  intros ->. unfold setFromEuler. cbn [e_x e_y e_z].
  replace (0 / 2) with 0 by lra. rewrite sin_0, cos_0. f_equal; ring.
Qed.

Lemma setFromEuler_zero (a b : R) : a = 0 -> b = 0 -> setFromEuler (mkEuler a b 0) = identity.
Proof.
  intros -> ->. rewrite setFromEuler_about_Y by reflexivity.
  replace (0 / 2) with 0 by lra. rewrite sin_0, cos_0. reflexivity.
Qed.

Lemma about_Y_back (b : R) :
  multiplyQuaternions (mkQuaternion 0 (sin (- b / 2)) 0 (cos (- b / 2)))
    (mkQuaternion 0 (sin (b / 2)) 0 (cos (b / 2))) = identity.
Proof.
  replace (- b / 2) with (- (b / 2)) by lra. rewrite sin_neg, cos_neg.
  pose proof (sin2_cos2 (b / 2)) as H. unfold Rsqr in H.
  unfold multiplyQuaternions, identity. cbn [q_x q_y q_z q_w]. f_equal; nra.
Qed.

Lemma about_X_back (a : R) :
  multiplyQuaternions (mkQuaternion (sin (- a / 2)) 0 0 (cos (- a / 2)))
    (mkQuaternion (sin (a / 2)) 0 0 (cos (a / 2))) = identity.
Proof.
  replace (- a / 2) with (- (a / 2)) by lra. rewrite sin_neg, cos_neg.
  pose proof (sin2_cos2 (a / 2)) as H. unfold Rsqr in H.
  unfold multiplyQuaternions, identity. cbn [q_x q_y q_z q_w]. f_equal; nra.
Qed.

(** X11.  A drag move that does not move the pointer leaves the orientation
    as it is, whether a drag is active or not: its increment is the identity
    quaternion. *)
Theorem X11_still_pointer_does_not_rotate
    (f : Quaternion -> Euler) (x y : R) (s : State) :
  previousMousePosition s = mkPoint x y ->
  quaternion (group (drag f x y s)) = quaternion (group s) /\
  previousMousePosition (drag f x y s) = mkPoint x y.
Proof.
  intros Hp. destruct (isDragging s) eqn:Hd.
  - destruct (drag_active f x y s Hd) as (Hq & Hp' & _).
    split; [|exact Hp']. rewrite Hq, Hp. cbn [p_x p_y].
    rewrite setFromEuler_zero; [apply multiplyQuaternions_identity_l | lra | lra].
  - rewrite drag_inactive by exact Hd. auto.
Qed.

(** X11 on a press at (100, 100) followed by a move event at the same place. *)
Lemma X11_still_pointer_does_not_rotate_witness :
  quaternion (group (drag eulerUnread 100 100 (onMouseDown 100 100 initialState))) =
    quaternion (group (onMouseDown 100 100 initialState)).
Proof.
  apply (X11_still_pointer_does_not_rotate eulerUnread 100 100
           (onMouseDown 100 100 initialState) eq_refl).
Defined.

(** X12.  A horizontal drag turns the grid about the Y axis and a vertical
    drag about the X axis, by [dragRotationSpeed] radians per pixel: the
    increment multiplied on the left is [(0, sin (a / 2), 0, cos (a / 2))],
    respectively [(sin (a / 2), 0, 0, cos (a / 2))], with [a] the pixels
    moved times 0.01. *)
Theorem X12_drag_axes (f : Quaternion -> Euler) (x y : R) (s : State) :
  isDragging s = true ->
  (y = p_y (previousMousePosition s) ->
     quaternion (group (drag f x y s)) =
       multiplyQuaternions
         (mkQuaternion 0 (sin ((x - p_x (previousMousePosition s)) * 0.01 / 2))
                       0 (cos ((x - p_x (previousMousePosition s)) * 0.01 / 2)))
         (quaternion (group s))) /\
  (x = p_x (previousMousePosition s) ->
     quaternion (group (drag f x y s)) =
       multiplyQuaternions
         (mkQuaternion (sin ((y - p_y (previousMousePosition s)) * 0.01 / 2)) 0
                       0 (cos ((y - p_y (previousMousePosition s)) * 0.01 / 2)))
         (quaternion (group s))).
Proof.
  intros Hd. destruct (drag_active f x y s Hd) as (Hq & _).
  unfold dragRotationSpeed in Hq. split; intros He; rewrite Hq.
  - rewrite setFromEuler_about_Y; [reflexivity | rewrite He; lra].
  - rewrite setFromEuler_about_X; [reflexivity | rewrite He; lra].
Qed.

(** X12 on a press at (100, 100) dragged to (150, 100). *)
Lemma X12_drag_axes_witness :
  quaternion (group (drag eulerUnread 150 100 (onMouseDown 100 100 initialState))) =
    multiplyQuaternions
      (mkQuaternion 0 (sin ((150 - 100) * 0.01 / 2)) 0 (cos ((150 - 100) * 0.01 / 2)))
      identity.
Proof.
  apply (proj1 (X12_drag_axes eulerUnread 150 100 (onMouseDown 100 100 initialState) eq_refl)).
  reflexivity.
Defined.

(** X13.  A drag along one screen axis is undone by dragging back: moving
    the pointer horizontally (or vertically) and then back to where it was
    restores the orientation exactly, and the remembered pointer position. *)
Theorem X13_drag_there_and_back (f : Quaternion -> Euler) (x y : R) (s : State) :
  isDragging s = true ->
  (quaternion (group
     (drag f (p_x (previousMousePosition s)) (p_y (previousMousePosition s))
        (drag f x (p_y (previousMousePosition s)) s))) = quaternion (group s)) /\
  (quaternion (group
     (drag f (p_x (previousMousePosition s)) (p_y (previousMousePosition s))
        (drag f (p_x (previousMousePosition s)) y s))) = quaternion (group s)) /\
  previousMousePosition
    (drag f (p_x (previousMousePosition s)) (p_y (previousMousePosition s))
       (drag f x y s)) = previousMousePosition s.
Proof.
  intros Hd. destruct (previousMousePosition s) as [x0 y0] eqn:Hp. cbn [p_x p_y].
  split; [|split].
  - destruct (drag_active f x y0 s Hd) as (Hq0 & Hp1 & Hd1).
    destruct (drag_active f x0 y0 (drag f x y0 s) Hd1) as (Hq1 & _).
    rewrite Hq1, Hq0, Hp1, Hp. cbn [p_x p_y]. unfold dragRotationSpeed.
    rewrite (setFromEuler_about_Y ((y0 - y0) * 0.01) ((x0 - x) * 0.01)) by lra.
    rewrite (setFromEuler_about_Y ((y0 - y0) * 0.01) ((x - x0) * 0.01)) by lra.
    rewrite multiplyQuaternions_assoc.
    replace ((x0 - x) * 0.01 / 2) with (- ((x - x0) * 0.01) / 2) by lra.
    rewrite about_Y_back. apply multiplyQuaternions_identity_l.
  - destruct (drag_active f x0 y s Hd) as (Hq0 & Hp1 & Hd1).
    destruct (drag_active f x0 y0 (drag f x0 y s) Hd1) as (Hq1 & _).
    rewrite Hq1, Hq0, Hp1, Hp. cbn [p_x p_y]. unfold dragRotationSpeed.
    rewrite (setFromEuler_about_X ((y0 - y) * 0.01) ((x0 - x0) * 0.01)) by lra.
    rewrite (setFromEuler_about_X ((y - y0) * 0.01) ((x0 - x0) * 0.01)) by lra.
    rewrite multiplyQuaternions_assoc.
    replace ((y0 - y) * 0.01 / 2) with (- ((y - y0) * 0.01) / 2) by lra.
    rewrite about_X_back. apply multiplyQuaternions_identity_l.
  - destruct (drag_active f x y s Hd) as (_ & _ & Hd1).
    destruct (drag_active f x0 y0 (drag f x y s) Hd1) as (_ & H & _). exact H.
Qed.

(** X13 on a press at (100, 100), dragged to (150, 100) and back. *)
Lemma X13_drag_there_and_back_witness :
  quaternion (group
    (drag eulerUnread 100 100 (drag eulerUnread 150 100 (onMouseDown 100 100 initialState)))) =
  quaternion (group (onMouseDown 100 100 initialState)).
Proof.
  apply (proj1 (X13_drag_there_and_back eulerUnread 150 100
                  (onMouseDown 100 100 initialState) eq_refl)).
Defined.

(** ** The drag lifecycle *)

Lemma dragMoves_inactive (f : Quaternion -> Euler) (ps : list Point) :
  forall s : State, isDragging s = false -> dragMoves f ps s = s.
Proof.
  unfold dragMoves. induction ps as [|p rest IH]; intros s Hd; simpl.
  - reflexivity.
  - unfold onMouseMove at 2. rewrite (drag_inactive f _ _ s Hd). apply IH, Hd.
Qed.

(** X14.  Without a button or finger down nothing turns the grid: after a
    mouse-up or a touch-end, and before the first press of a session, any
    number of pointer moves leave the whole state as it is; and the first
    move after a new press turns the grid by the distance from the press, not
    from where the pointer was last seen. *)
Theorem X14_released_pointer_does_not_rotate
    (f : Quaternion -> Euler) (ps : list Point) (x y x' y' : R) (s : State) :
  dragMoves f ps (onMouseUp s) = onMouseUp s /\
  dragMoves f ps (onTouchEnd s) = onTouchEnd s /\
  dragMoves f ps initialState = initialState /\
  quaternion (group (drag f x' y' (onMouseDown x y (dragMoves f ps (onMouseUp s))))) =
    multiplyQuaternions
      (setFromEuler (mkEuler ((y' - y) * dragRotationSpeed) ((x' - x) * dragRotationSpeed) 0))
      (quaternion (group s)).
Proof.
  split; [apply dragMoves_inactive; reflexivity|].
  split; [apply dragMoves_inactive; reflexivity|].
  split; [apply dragMoves_inactive; reflexivity|].
  rewrite dragMoves_inactive by reflexivity.
  destruct (drag_active f x' y' (onMouseDown x y (onMouseUp s)) eq_refl) as (Hq & _).
  exact Hq.
Qed.

(** ** Pinch and wheel, composed *)

Lemma zoom_unclamped (delta : R) (s : State) :
  minZoom <= targetZoom s + delta * zoomSpeed <= maxZoom ->
  targetZoom (zoom delta s) = targetZoom s + delta * zoomSpeed.
Proof.
  intros H. rewrite zoom_target. unfold Rmax, Rmin. repeat destruct Rle_dec; lra.
Qed.

Lemma pinch_effect (f : Quaternion -> Euler) (t0 t1 : Touch) (s : State) :
  let s' := after (onTouchMove f [t0; t1] s) in
  previousTouchDistance s' = touchSpread t0 t1 /\
  targetZoom s' = targetZoom (zoom (previousTouchDistance s - touchSpread t0 t1) s) /\
  group s' = group s /\ isDragging s' = isDragging s /\
  previousMousePosition s' = previousMousePosition s.
Proof. cbn. repeat split; reflexivity. Qed.

(** X15.  A pinch adds up: as long as the target distance stays within the
    limits, after any number of two-finger moves it has changed by
    [zoomSpeed] times (the finger distance at the start minus the finger
    distance now), whatever happened in between; and the pinch leaves the
    orientation and the drag state alone. *)
Theorem X15_pinch_adds_up
    (f : Quaternion -> Euler) (ms : list (Touch * Touch)) (m : Touch * Touch) (s : State) :
  Forall (fun m' =>
            minZoom <= targetZoom s
                         + (previousTouchDistance s - touchSpread (fst m') (snd m')) * zoomSpeed
                    <= maxZoom) (ms ++ [m]) ->
  targetZoom (pinchMoves f (ms ++ [m]) s) =
    targetZoom s + (previousTouchDistance s - touchSpread (fst m) (snd m)) * zoomSpeed /\
  previousTouchDistance (pinchMoves f (ms ++ [m]) s) = touchSpread (fst m) (snd m) /\
  group (pinchMoves f (ms ++ [m]) s) = group s /\
  isDragging (pinchMoves f (ms ++ [m]) s) = isDragging s.
Proof.
  revert s. induction ms as [|m0 rest IH]; intros s Hall.
  - simpl app in *. inversion Hall as [|? ? Hm _]; subst.
    change (pinchMoves f [m] s) with (after (onTouchMove f [fst m; snd m] s)).
    destruct (pinch_effect f (fst m) (snd m) s) as (Hp & HT & Hg & Hd & _).
    cbv zeta in *. rewrite HT, (zoom_unclamped _ s Hm). auto.
  - simpl app in *. inversion Hall as [|? ? Hm0 Hrest]; subst.
    destruct (pinch_effect f (fst m0) (snd m0) s) as (Hp & HT & Hg & Hd & _).
    cbv zeta in *. rewrite (zoom_unclamped _ s Hm0) in HT.
    set (s1 := after (onTouchMove f [fst m0; snd m0] s)) in *.
    change (pinchMoves f (m0 :: rest ++ [m]) s) with (pinchMoves f (rest ++ [m]) s1).
    destruct (IH s1) as (HT' & Hp' & Hg' & Hd').
    + eapply Forall_impl; [|exact Hrest]. intros m' Hm'. cbv beta in *.
      rewrite HT, Hp. lra.
    + rewrite HT', Hp', Hg', Hd', HT, Hp, Hg, Hd. repeat split; try reflexivity. lra.
Qed.

(** X15 on fingers put down 10 apart, spread to 12, then closed to 8. *)
Lemma X15_pinch_adds_up_witness :
  targetZoom
    (pinchMoves eulerUnread
       [(mkTouch 0 0 0 0, mkTouch 0 12 0 12); (mkTouch 0 0 0 0, mkTouch 0 8 0 8)]
       (set_previousTouchDistance 10 initialState)) =
  targetZoom initialState
    + (10 - touchSpread (mkTouch 0 0 0 0) (mkTouch 0 8 0 8)) * zoomSpeed.
Proof.
  apply (proj1 (X15_pinch_adds_up eulerUnread
                  [(mkTouch 0 0 0 0, mkTouch 0 12 0 12)]
                  (mkTouch 0 0 0 0, mkTouch 0 8 0 8)
                  (set_previousTouchDistance 10 initialState)
                  ltac:(
                    assert (H12 : touchSpread (mkTouch 0 0 0 0) (mkTouch 0 12 0 12) = 12)
                      by (unfold touchSpread; cbn [pageX pageY]; apply hypot_of_square; lra);
                    assert (H8 : touchSpread (mkTouch 0 0 0 0) (mkTouch 0 8 0 8) = 8)
                      by (unfold touchSpread; cbn [pageX pageY]; apply hypot_of_square; lra);
                    pose proof initialCamera_distance as Hc;
                    repeat constructor; cbn [fst snd]; rewrite ?H12, ?H8;
                    unfold minZoom, maxZoom, zoomSpeed; simpl; lra))).
Defined.

(** X16.  The limits swallow what goes past them: a delta that would take
    the target beyond [maxZoom] leaves it at exactly [maxZoom], a further
    zoom-out changes nothing, and a zoom-in afterwards starts from [maxZoom],
    not from where the target would have been without the limit. *)
Theorem X16_zoom_limit_swallows_excess (out back : R) (s : State) :
  maxZoom <= targetZoom s + out * zoomSpeed ->
  0 <= out ->
  back <= 0 ->
  targetZoom (zoom out s) = maxZoom /\
  targetZoom (zoom out (zoom out s)) = maxZoom /\
  targetZoom (zoom back (zoom out s)) = Rmax minZoom (maxZoom + back * zoomSpeed).
Proof.
  intros Hover Hout Hback.
  assert (H1 : targetZoom (zoom out s) = maxZoom).
  { rewrite zoom_target. unfold minZoom, maxZoom, zoomSpeed, Rmax, Rmin in *.
    repeat destruct Rle_dec; lra. }
  split; [exact H1|]. split.
  - rewrite zoom_target, H1. unfold minZoom, maxZoom, zoomSpeed, Rmax, Rmin in *.
    repeat destruct Rle_dec; lra.
  - rewrite zoom_target, H1. unfold minZoom, maxZoom, zoomSpeed, Rmax, Rmin in *.
    repeat destruct Rle_dec; lra.
Qed.

(** X16 on a wheel delta of 1000 followed by one of -10, from the start of a
    session. *)
Lemma X16_zoom_limit_swallows_excess_witness :
  targetZoom (zoom (-10) (zoom 1000 initialState)) = Rmax minZoom (maxZoom + (-10) * zoomSpeed).
Proof.
  apply (X16_zoom_limit_swallows_excess 1000 (-10) initialState).
  - pose proof initialCamera_distance. unfold maxZoom, zoomSpeed. simpl. lra.
  - lra.
  - lra.
Defined.

(** * Beyond the claims: the scene, the pointer and the listeners *)

(** ** The grid of cubes *)

Lemma buildRow_children (c : Child) :
  In c buildRow <->
  exists x z, (x < gridSize)%nat /\ (z < gridSize)%nat /\
    (c = mkChild Mesh (cubePosition x z) \/ c = mkChild LineSegments (cubePosition x z)).
Proof.
  unfold buildRow. rewrite in_flat_map. split.
  - intros (x & Hx & Hc). apply in_flat_map in Hc. destruct Hc as (z & Hz & Hc).
    apply in_seq in Hx. apply in_seq in Hz. exists x, z.
    split; [lia|]. split; [lia|].
    destruct Hc as [<-|[<-|[]]]; auto.
  - intros (x & z & Hx & Hz & Hc). exists x. split; [apply in_seq; lia|].
    apply in_flat_map. exists z. split; [apply in_seq; lia|].
    destruct Hc as [->| ->]; simpl; auto.
Qed.

(** The cubes of the grid are those at [(x, y, z)] for indices below 3, each
    at [index * (cubeSize + gap) - offset] along its axis. *)
Lemma cubeCentres_spec (p : Vector3) :
  In p cubeCentres <->
  exists x y z, (x < gridSize)%nat /\ (y < gridSize)%nat /\ (z < gridSize)%nat /\
    p = mkVector3 (INR x * (cubeSize + gap) - offset)
                  (INR y * (cubeSize + gap) - offset + 0)
                  (INR z * (cubeSize + gap) - offset).
Proof.
  unfold cubeCentres, buildRows. rewrite in_flat_map. split.
  - intros (r & Hr & Hp). apply in_map_iff in Hr. destruct Hr as (y & <- & Hy).
    apply in_seq in Hy. apply in_map_iff in Hp. destruct Hp as (c & <- & Hc).
    apply filter_In in Hc. destruct Hc as [Hc Hm]. cbn [children] in Hc.
    apply buildRow_children in Hc. destruct Hc as (x & z & Hx & Hz & [-> | ->]).
    + exists x, y, z. split; [exact Hx|]. split; [lia|]. split; [exact Hz|]. reflexivity.
    + discriminate Hm.
  - intros (x & y & z & Hx & Hy & Hz & ->).
    exists (mkRow (INR y * (cubeSize + gap) - offset) buildRow). split.
    + apply in_map_iff. exists y. split; [reflexivity | apply in_seq; lia].
    + apply in_map_iff. exists (mkChild Mesh (cubePosition x z)). split; [reflexivity|].
      apply filter_In. split; [|reflexivity]. cbn [children].
      apply buildRow_children. exists x, z. auto.
Qed.

Lemma below_three (n : nat) : (n < gridSize)%nat -> INR n = 0 \/ INR n = 1 \/ INR n = 2.
Proof.
  unfold gridSize. intros H. destruct n as [|[|[|n]]]; simpl; [auto | auto | right; right; lra | lia].
Qed.

Lemma offset_value : offset = cubeSize + gap.
Proof. unfold offset, gridSize. simpl INR. lra. Qed.

(** X17.  The set-up builds three rows of nine cubes, each cube with its
    outline at the same place; the 27 cube centres are the points
    [(0.9 * (x - 1), 0.9 * (y - 1), 0.9 * (z - 1))] for [x, y, z] in 0..2, so
    the grid is centred on the origin: with every cube centre it contains the
    opposite one, and the middle cube sits at the origin itself. *)
Theorem X17_grid_is_centred :
  List.length buildRows = 3%nat /\
  (forall r, In r buildRows ->
     List.length (filter isMesh (children r)) = 9%nat /\
     forall c, In c (children r) ->
       In (mkChild Mesh (position c)) (children r) /\
       In (mkChild LineSegments (position c)) (children r)) /\
  List.length cubeCentres = 27%nat /\
  (forall p, In p cubeCentres <->
     exists x y z, (x < 3)%nat /\ (y < 3)%nat /\ (z < 3)%nat /\
       v_x p = 0.9 * (INR x - 1) /\ v_y p = 0.9 * (INR y - 1) /\ v_z p = 0.9 * (INR z - 1)) /\
  (forall p, In p cubeCentres ->
     In (mkVector3 (- v_x p) (- v_y p) (- v_z p)) cubeCentres) /\
  (exists p, In p cubeCentres /\ v_x p = 0 /\ v_y p = 0 /\ v_z p = 0).
Proof.
  assert (Hspec : forall p, In p cubeCentres <->
     exists x y z, (x < 3)%nat /\ (y < 3)%nat /\ (z < 3)%nat /\
       v_x p = 0.9 * (INR x - 1) /\ v_y p = 0.9 * (INR y - 1) /\ v_z p = 0.9 * (INR z - 1)).
  { intros p. rewrite cubeCentres_spec. rewrite offset_value. unfold cubeSize, gap, gridSize.
    split; intros (x & y & z & Hx & Hy & Hz & H); exists x, y, z;
      (split; [exact Hx|]); (split; [exact Hy|]); (split; [exact Hz|]).
    - rewrite H. cbn [v_x v_y v_z]. repeat split; lra.
    - destruct p as [a b c]. cbn [v_x v_y v_z] in H. destruct H as (-> & -> & ->).
      f_equal; lra. }
  split; [reflexivity|]. split; [|split; [reflexivity|]].
  - intros r Hr. unfold buildRows in Hr. apply in_map_iff in Hr.
    destruct Hr as (y & <- & _). cbn [children]. split; [reflexivity|].
    intros c Hc. apply buildRow_children in Hc.
    destruct Hc as (x & z & Hx & Hz & Hc).
    assert (Hpos : position c = cubePosition x z) by (destruct Hc as [-> | ->]; reflexivity).
    rewrite Hpos. split; apply buildRow_children; exists x, z; auto.
  - split; [exact Hspec|]. split.
    + intros p Hp. apply Hspec in Hp. destruct Hp as (x & y & z & Hx & Hy & Hz & Ex & Ey & Ez).
      apply Hspec. exists (2 - x)%nat, (2 - y)%nat, (2 - z)%nat.
      split; [lia|]. split; [lia|]. split; [lia|]. cbn [v_x v_y v_z].
      rewrite !minus_INR by lia. rewrite Ex, Ey, Ez. simpl INR. repeat split; lra.
    + exists (mkVector3 0 0 0). split; [|auto].
      apply Hspec. exists 1%nat, 1%nat, 1%nat. cbn [v_x v_y v_z]. simpl INR.
      repeat split; try lia; lra.
Qed.

(** X18.  No two cubes touch: the centres of two different cubes are at
    least [cubeSize + gap] apart along some axis, which leaves a gap of 0.1
    between cubes of side 0.8. *)
Theorem X18_cubes_are_separated (p q : Vector3) :
  In p cubeCentres ->
  In q cubeCentres ->
  p <> q ->
  (cubeSize + gap <= Rabs (v_x p - v_x q) \/
   cubeSize + gap <= Rabs (v_y p - v_y q) \/
   cubeSize + gap <= Rabs (v_z p - v_z q)) /\
  cubeSize + gap - cubeSize = 0.1.
Proof.
  intros Hp Hq Hne. split; [|unfold cubeSize, gap; lra].
  apply cubeCentres_spec in Hp. apply cubeCentres_spec in Hq.
  destruct Hp as (x & y & z & Hx & Hy & Hz & ->).
  destruct Hq as (x' & y' & z' & Hx' & Hy' & Hz' & ->).
  cbn [v_x v_y v_z]. rewrite offset_value. unfold cubeSize, gap.
  destruct (Nat.eq_dec x x') as [-> | Dx].
  - destruct (Nat.eq_dec y y') as [-> | Dy].
    + destruct (Nat.eq_dec z z') as [-> | Dz]; [exfalso; apply Hne; reflexivity|].
      right. right.
      destruct (below_three z Hz) as [E|[E|E]], (below_three z' Hz') as [E'|[E'|E']];
        rewrite E, E';
        try (exfalso; apply Dz, INR_eq; congruence);
        unfold Rabs; destruct Rcase_abs; lra.
    + right. left.
      destruct (below_three y Hy) as [E|[E|E]], (below_three y' Hy') as [E'|[E'|E']];
        rewrite E, E';
        try (exfalso; apply Dy, INR_eq; congruence);
        unfold Rabs; destruct Rcase_abs; lra.
  - left.
    destruct (below_three x Hx) as [E|[E|E]], (below_three x' Hx') as [E'|[E'|E']];
      rewrite E, E';
      try (exfalso; apply Dx, INR_eq; congruence);
      unfold Rabs; destruct Rcase_abs; lra.
Qed.

(** X18 on the corner cube (0, 0, 0) and its neighbour (1, 0, 0). *)
Lemma X18_cubes_are_separated_witness :
  cubeSize + gap <=
    Rabs ((INR 0 * (cubeSize + gap) - offset) - (INR 1 * (cubeSize + gap) - offset)) \/
  cubeSize + gap <=
    Rabs ((INR 0 * (cubeSize + gap) - offset + 0) - (INR 0 * (cubeSize + gap) - offset + 0)) \/
  cubeSize + gap <=
    Rabs ((INR 0 * (cubeSize + gap) - offset) - (INR 0 * (cubeSize + gap) - offset)).
Proof.
  apply (proj1 (X18_cubes_are_separated
    (mkVector3 (INR 0 * (cubeSize + gap) - offset) (INR 0 * (cubeSize + gap) - offset + 0)
               (INR 0 * (cubeSize + gap) - offset))
    (mkVector3 (INR 1 * (cubeSize + gap) - offset) (INR 0 * (cubeSize + gap) - offset + 0)
               (INR 0 * (cubeSize + gap) - offset))
    ltac:(apply cubeCentres_spec; exists 0%nat, 0%nat, 0%nat; unfold gridSize;
          repeat split; lia)
    ltac:(apply cubeCentres_spec; exists 1%nat, 0%nat, 0%nat; unfold gridSize;
          repeat split; lia)
    ltac:(intros H; apply (f_equal v_x) in H; cbn [v_x] in H;
          unfold cubeSize, gap in H; simpl INR in H; lra))).
Defined.

(** ** The pointer in device coordinates *)

(** X19.  For a window of positive size, [checkHover] maps a pointer inside
    the window into the square [[-1, 1] x [-1, 1]], the top-left corner to
    [(-1, 1)] and the centre to [(0, 0)], with the vertical axis flipped; and
    the pointer position can be read back from the device coordinates. *)
Theorem X19_pointer_device_coordinates (w h x y : R) :
  0 < w ->
  0 < h ->
  (0 <= x <= w -> -1 <= p_x (pointerToDevice w h x y) <= 1) /\
  (0 <= y <= h -> -1 <= p_y (pointerToDevice w h x y) <= 1) /\
  pointerToDevice w h 0 0 = mkPoint (-1) 1 /\
  pointerToDevice w h (w / 2) (h / 2) = mkPoint 0 0 /\
  x = (p_x (pointerToDevice w h x y) + 1) / 2 * w /\
  y = (1 - p_y (pointerToDevice w h x y)) / 2 * h /\
  (forall y', y <= y' -> p_y (pointerToDevice w h x y') <= p_y (pointerToDevice w h x y)).
Proof.
  intros Hw Hh. unfold pointerToDevice. cbn [p_x p_y].
  assert (Hx : x / w * w = x) by (field; lra).
  assert (Hy : y / h * h = y) by (field; lra).
  assert (Hiw : 0 < / w) by (apply Rinv_0_lt_compat; exact Hw).
  assert (Hih : 0 < / h) by (apply Rinv_0_lt_compat; exact Hh).
  split; [|split; [|split; [|split; [|split; [|split]]]]].
  - intros [H0 H1]. unfold Rdiv. split; nra.
  - intros [H0 H1]. unfold Rdiv. split; nra.
  - f_equal; field; lra.
  - f_equal; field; lra.
  - field. lra.
  - field. lra.
  - intros y' Hy'. unfold Rdiv. nra.
Qed.

(** X19 on a pointer at (400, 150) in a window of 800 by 600. *)
Lemma X19_pointer_device_coordinates_witness :
  400 = (p_x (pointerToDevice 800 600 400 150) + 1) / 2 * 800.
Proof.
  destruct (X19_pointer_device_coordinates 800 600 400 150) as (_ & _ & _ & _ & H & _).
  - lra.
  - lra.
  - exact H.
Defined.

(** ** Listeners *)

Lemma listener_eqb_eq (a b : Listener) : listener_eqb a b = true <-> a = b.
Proof.
  destruct a as [n c], b as [n' c']. unfold listener_eqb. cbn [fst snd].
  rewrite andb_true_iff. split.
  - intros [Hn Hc]. f_equal.
    + destruct n, n'; simpl in Hn; congruence.
    + destruct c, c'; simpl in Hc; try congruence.
      apply Nat.eqb_eq in Hc. congruence.
  - intros H. injection H as -> ->. split.
    + destruct n'; reflexivity.
    + destruct c'; simpl; try reflexivity. apply Nat.eqb_refl.
Qed.

Lemma removeEventListener_In (l l' : Listener) (reg : list Listener) :
  In l' (removeEventListener l reg) <-> In l' reg /\ l' <> l.
Proof.
  unfold removeEventListener. rewrite filter_In. split; intros [H1 H2]; split; auto.
  - intros ->. rewrite (proj2 (listener_eqb_eq l l) eq_refl) in H2. discriminate.
  - destruct (listener_eqb l l') eqn:E; [|reflexivity].
    apply listener_eqb_eq in E. congruence.
Qed.

Lemma removeEventListener_absent (l : Listener) (reg : list Listener) :
  ~ In l reg -> removeEventListener l reg = reg.
Proof.
  intros Hn. unfold removeEventListener. induction reg as [|a rest IH]; simpl.
  - reflexivity.
  - destruct (listener_eqb l a) eqn:E; simpl.
    + apply listener_eqb_eq in E. subst. exfalso. apply Hn. left. reflexivity.
    + f_equal. apply IH. intros H. apply Hn. right. exact H.
Qed.

Lemma removeEventListener_app (l : Listener) (a b : list Listener) :
  removeEventListener l (a ++ b) = removeEventListener l a ++ removeEventListener l b.
Proof. unfold removeEventListener. apply filter_app. Qed.

Lemma unsubscribe_app (a b : list Listener) :
  unsubscribe (a ++ b) = unsubscribe a ++ unsubscribe b.
Proof.
  unfold unsubscribe, ownListeners. simpl fold_left.
  repeat rewrite removeEventListener_app. reflexivity.
Qed.

Lemma unsubscribe_In (l : Listener) (reg : list Listener) :
  In l (unsubscribe reg) <-> In l reg /\ ~ In l ownListeners.
Proof.
  unfold unsubscribe, ownListeners. simpl fold_left.
  repeat rewrite removeEventListener_In. simpl In. intuition congruence.
Qed.

Lemma unsubscribe_foreign (reg : list Listener) :
  (forall l, In l reg -> ~ In l ownListeners) -> unsubscribe reg = reg.
Proof.
  intros H. unfold unsubscribe.
  assert (G : forall own, (forall l, In l own -> ~ In l reg) ->
            fold_left (fun acc l => removeEventListener l acc) own reg = reg).
  { induction own as [|o rest IH]; intros Ho; simpl.
    - reflexivity.
    - rewrite removeEventListener_absent by (apply Ho; left; reflexivity).
      apply IH. intros l Hl. apply Ho. right. exact Hl. }
  apply G. intros l Hl Hr. exact (H l Hr Hl).
Qed.

Lemma addEventListener_shape (l : Listener) (reg : list Listener) :
  addEventListener l reg = reg \/ addEventListener l reg = reg ++ [l].
Proof. unfold addEventListener. destruct (existsb (listener_eqb l) reg); auto. Qed.

Lemma addEventListener_In (l l' : Listener) (reg : list Listener) :
  In l' (addEventListener l reg) <-> In l' reg \/ l' = l.
Proof.
  unfold addEventListener. destruct (existsb (listener_eqb l) reg) eqn:E.
  - split; [auto|]. intros [H| ->]; [exact H|].
    apply existsb_exists in E. destruct E as (x & Hx & Hl).
    apply listener_eqb_eq in Hl. subst. exact Hx.
  - rewrite in_app_iff. simpl. split; intros [H|H]; auto.
    + destruct H as [<-|[]]. auto.
Qed.

Lemma subscribe_In (l : Listener) (reg : list Listener) :
  In l (subscribe reg) <-> In l reg \/ In l ownListeners.
Proof.
  unfold subscribe, ownListeners. simpl fold_left.
  repeat rewrite addEventListener_In. simpl In. intuition congruence.
Qed.

(** What [subscribe] appends is made of the effect's own listeners. *)
Lemma subscribe_appends (reg : list Listener) :
  exists added, subscribe reg = reg ++ added /\ forall l, In l added -> In l ownListeners.
Proof.
  unfold subscribe.
  assert (G : forall own reg0,
            exists added,
              fold_left (fun acc l => addEventListener l acc) own reg0 = reg0 ++ added /\
              forall l, In l added -> In l own).
  { induction own as [|o rest IH]; intros reg0; simpl.
    - exists []. rewrite app_nil_r. split; [reflexivity | intros l []].
    - destruct (IH (addEventListener o reg0)) as (added & Heq & Hin).
      destruct (addEventListener_shape o reg0) as [E|E]; rewrite E in Heq |- *.
      + exists added. split; [exact Heq | intros l Hl; right; apply Hin, Hl].
      + exists (o :: added). rewrite Heq, <- app_assoc. split; [reflexivity|].
        intros l [<-|Hl]; [left; reflexivity | right; apply Hin, Hl]. }
  apply G.
Qed.

(** X20.  The clean-up removes exactly what the set-up registered: after it
    none of the effect's eight listeners is on [window], every listener of
    other code is still there in its place, and running the clean-up a second
    time changes nothing. *)
Theorem X20_cleanup_removes_own_listeners (reg : list Listener) :
  (forall l, In l ownListeners -> In l (subscribe reg)) /\
  (forall l, In l ownListeners -> ~ In l (unsubscribe (subscribe reg))) /\
  ((forall l, In l reg -> ~ In l ownListeners) -> unsubscribe (subscribe reg) = reg) /\
  unsubscribe (unsubscribe (subscribe reg)) = unsubscribe (subscribe reg) /\
  List.length ownListeners = 8%nat.
Proof.
  split; [intros l Hl; apply subscribe_In; right; exact Hl|].
  split; [intros l Hl Hin; apply unsubscribe_In in Hin; tauto|].
  split; [|split; [|reflexivity]].
  - intros Hforeign. destruct (subscribe_appends reg) as (added & -> & Hadded).
    rewrite unsubscribe_app, (unsubscribe_foreign reg Hforeign).
    assert (E : unsubscribe added = []).
    { destruct (unsubscribe added) as [|l rest] eqn:E; [reflexivity|].
      assert (Hl : In l (unsubscribe added)) by (rewrite E; left; reflexivity).
      apply unsubscribe_In in Hl. destruct Hl as [H1 H2]. exfalso. apply H2, Hadded, H1. }
    rewrite E. apply app_nil_r.
  - apply unsubscribe_foreign. intros l Hl. apply unsubscribe_In in Hl. tauto.
Qed.

(** * Beyond the claims: who writes what *)

(** X21.  Input and animation keep to their own variables.  An input event
    never writes the scheduler variables, a row angle, the smoothed distance
    or the camera position: wheel and pinch only move the target.  A frame
    never writes the drag flag, the remembered pointer position, the
    remembered finger distance or the target distance. *)
Theorem X21_input_and_frames_keep_apart
    (f : Quaternion -> Euler) (e : Event) (s : State) :
  rowInRange s ->
  exists s', dispatch f e s = Some s' /\
    ((forall t, e <> AnimationFrame t) ->
       isRotating s' = isRotating s /\ currentRowIndex s' = currentRowIndex s /\
       rotationStartTime s' = rotationStartTime s /\ rows s' = rows s /\
       currentZoom s' = currentZoom s /\ cameraPosition s' = cameraPosition s) /\
    ((exists t, e = AnimationFrame t) ->
       isDragging s' = isDragging s /\
       previousMousePosition s' = previousMousePosition s /\
       previousTouchDistance s' = previousTouchDistance s /\
       targetZoom s' = targetZoom s).
Proof.
  intros Hr. destruct (event_cases e) as [[t ->] | He].
  - destruct (animate_frame t s Hr) as (s' & Ha & _ & Hin & _).
    exists s'. split; [exact Ha|]. split.
    + intros H. exfalso. apply (H t). reflexivity.
    + intros _. exact Hin.
  - destruct (input_event_effect f e s He) as (s' & Hd & (E1 & E2 & E3 & E4) & Ec & Ecam & _).
    exists s'. split; [exact Hd|]. split.
    + intros _. repeat split; assumption.
    + intros [t Ht]. exfalso. apply (He t), Ht.
Qed.

(** X21 on a wheel event at the start of a session. *)
Lemma X21_input_and_frames_keep_apart_witness :
  exists s', dispatch eulerUnread (Wheel 100) initialState = Some s' /\
    rows s' = rows initialState /\ cameraPosition s' = cameraPosition initialState.
Proof.
  destruct (X21_input_and_frames_keep_apart eulerUnread (Wheel 100) initialState)
    as (s' & Hd & Hin & _).
  - unfold rowInRange. simpl. lia.
  - exists s'. split; [exact Hd|].
    destruct Hin as (_ & _ & _ & Hrows & _ & Hcam); [intros t; discriminate|].
    split; [exact Hrows | exact Hcam].
Defined.
